(** * honyaku: segment / translate / reassemble drivers

    A shallow embedding of the four translation drivers of the repository
    ([honyaku.py] for HTML, [honyaku_cpp.py] for C-family sources,
    [honyaku_md.py] for Markdown, [honyaku_tex.py] for TeX) and the
    properties their specification states about them.

    Conventions of the embedding.
    - A Python [str] is a [string]; a character is a code point below 256.
    - The translation service is external.  A call [translator.translate(t)]
      is a value of type [option string]: [Some r] when the call returns
      the text [r], [None] when it raises.
    - The texts handed to the service are recorded next to every result
      (type [Dispatch]), so that "never sent to the service" is a statement
      about the program.
    - [asyncio.gather] and [asyncio.Semaphore] come from the Python
      library; they are modelled by [Async.gather] and by the step relation
      [Async.step].
    - A file is a list of bytes.  The C-family, the Markdown and the TeX
      driver open their files in text mode; what the Python library does
      between the bytes of a file and the text of the program is modelled
      in [Io]. *)

From Stdlib Require Import Strings.String Strings.Ascii Strings.Byte ZArith Lia.
From stdpp Require Import base option list strings gmap pretty.

Local Open Scope string_scope.

(** ** Python string primitives *)

Module PyStr.

Definition code (c : ascii) : nat := nat_of_ascii c.

Definition between (lo hi n : nat) : bool := (lo <=? n)%nat && (n <=? hi)%nat.

(** [str.isspace] on one character, which is also the class [\s] of
    [re] on [str] patterns. *)
Definition isspace (c : ascii) : bool :=
  let n := code c in
  between 9 13 n || between 28 32 n || (n =? 133)%nat || (n =? 160)%nat.

(** The class [[a-zA-Z0-9]]. *)
Definition is_alnum (c : ascii) : bool :=
  let n := code c in
  between 48 57 n || between 65 90 n || between 97 122 n.

Definition is_newline (c : ascii) : bool := (code c =? 10)%nat.

(** The line feed as a text. *)
Definition LF : string := String "010" EmptyString.

Fixpoint existsb (p : ascii -> bool) (s : string) : bool :=
  match s with
  | EmptyString => false
  | String c r => p c || existsb p r
  end.

(** [re.search(r'[a-zA-Z0-9]', s)] as a truth value. *)
Definition has_alnum (s : string) : bool := existsb is_alnum s.

(** [c in s] for a character. *)
Definition mem (c : ascii) (s : string) : bool :=
  existsb (fun d => if ascii_dec c d then true else false) s.

(** [s.lstrip(chars)], the characters given by a predicate. *)
Fixpoint lstrip_of (p : ascii -> bool) (s : string) : string :=
  match s with
  | EmptyString => EmptyString
  | String c r => if p c then lstrip_of p r else s
  end.

(** [s.rstrip(chars)]. *)
Fixpoint rstrip_of (p : ascii -> bool) (s : string) : string :=
  match s with
  | EmptyString => EmptyString
  | String c r =>
      match rstrip_of p r with
      | EmptyString => if p c then EmptyString else String c EmptyString
      | r' => String c r'
      end
  end.

Definition lstrip (s : string) : string := lstrip_of isspace s.
Definition rstrip (s : string) : string := rstrip_of isspace s.
Definition strip (s : string) : string := rstrip (lstrip s).

(** Truth value of a [str]: non-empty. *)
Definition truthy (s : string) : bool :=
  match s with EmptyString => false | _ => true end.

Definition startswith (p s : string) : bool := String.prefix p s.

Fixpoint take (n : nat) (s : string) : string :=
  match n, s with
  | S k, String c r => String c (take k r)
  | _, _ => EmptyString
  end.

Fixpoint drop (n : nat) (s : string) : string :=
  match n, s with
  | S k, String c r => drop k r
  | _, _ => s
  end.

(** [s.find(sub)]: the first index, or [-1]. *)
Definition find (sub s : string) : Z :=
  match String.index 0 sub s with
  | Some k => Z.of_nat k
  | None => (-1)%Z
  end.

(** The slice [s[:k]], where a negative [k] counts from the end. *)
Definition slice_to (s : string) (k : Z) : string :=
  if (k <? 0)%Z
  then take (Z.to_nat (Z.of_nat (String.length s) + k)) s
  else take (Z.to_nat k) s.

(** [text[:len(text) - len(text.lstrip())]]. *)
Definition indent_of (text : string) : string :=
  slice_to text
    (Z.of_nat (String.length text) - Z.of_nat (String.length (lstrip text))).

(** [sub in s] for a text. *)
Definition contains (sub s : string) : bool :=
  match String.index 0 sub s with Some _ => true | None => false end.

(** [''.join(l)]. *)
Definition concat (l : list string) : string := foldr String.append "" l.

(** [s.split('\n')]: never empty. *)
Fixpoint split_nl (s : string) : list string :=
  match s with
  | EmptyString => [EmptyString]
  | String c r =>
      if is_newline c then EmptyString :: split_nl r
      else match split_nl r with
           | l :: ls => String c l :: ls
           | [] => [String c EmptyString]
           end
  end.

(** ['\n'.join(l)]. *)
Fixpoint join_nl (l : list string) : string :=
  match l with
  | [] => EmptyString
  | [x] => x
  | x :: rest => x +:+ String "010" (join_nl rest)
  end.

(** [f.readlines()]: the lines with their terminators. *)
Fixpoint readlines (s : string) : list string :=
  match s with
  | EmptyString => []
  | String c r =>
      if is_newline c then String c EmptyString :: readlines r
      else match readlines r with
           | l :: ls => String c l :: ls
           | [] => [String c EmptyString]
           end
  end.

(** The upper-case form of ASCII text, the test double of the scenarios. *)
Definition upper_char (c : ascii) : ascii :=
  let n := code c in
  if between 97 122 n then ascii_of_nat (n - 32) else c.

Fixpoint upper (s : string) : string :=
  match s with
  | EmptyString => EmptyString
  | String c r => String (upper_char c) (upper r)
  end.

End PyStr.

(** ** Regular-expression scanning

    [re.finditer] and [re.sub] walk the subject from left to right: at
    each position the pattern is tried; a match is consumed whole and the
    scan resumes behind it, otherwise one character is copied.  A pattern
    is given by its matcher [m]: [m s] is the length of the match that
    starts at the head of [s].  None of the patterns of the drivers
    matches the empty string. *)

Module Re.
Import PyStr.

Inductive piece : Type :=
| Lit (c : ascii)
| Hit (m : string).

(** [skip] characters of the current match are still to be passed. *)
Fixpoint scan (m : string -> option nat) (skip : nat) (s : string)
  : list piece :=
  match s with
  | EmptyString => []
  | String c r =>
      match skip with
      | S k => scan m k r
      | O =>
          match m s with
          | Some (S n) => Hit (take (S n) s) :: scan m n r
          | _ => Lit c :: scan m 0 r
          end
      end
  end.

Definition pieces (m : string -> option nat) (s : string) : list piece :=
  scan m 0 s.

Fixpoint hits (ps : list piece) : list string :=
  match ps with
  | [] => []
  | Lit _ :: r => hits r
  | Hit x :: r => x :: hits r
  end.

(** [[mt.group(0) for mt in pattern.finditer(s)]]. *)
Definition finditer (m : string -> option nat) (s : string) : list string :=
  hits (pieces m s).

(** The output of a substitution whose replacement function is called
    with the number of matches seen before and the matched text. *)
Fixpoint render (repl : nat -> string -> string) (k : nat)
  (ps : list piece) : string :=
  match ps with
  | [] => EmptyString
  | Lit c :: r => String c (render repl k r)
  | Hit x :: r => repl k x +:+ render repl (S k) r
  end.

(** [pattern.sub(repl, s)] for a replacement function. *)
Definition sub (m : string -> option nat) (repl : string -> string)
  (s : string) : string :=
  render (fun _ => repl) 0 (pieces m s).

(** A pattern of the shape: white space, a literal text, white space,
    all runs of white space as long as possible.  The literal texts of
    the drivers start with a character that is not white space, so the
    leading run is taken whole. *)
Definition spaced (lit : string) (s : string) : option nat :=
  let body := lstrip s in
  if startswith lit body then
    let after := drop (String.length lit) body in
    Some ((String.length s - String.length body) + String.length lit
          + (String.length after - String.length (lstrip after)))
  else None.

(** The same when the replacement function counts its calls. *)
Definition sub_counting (m : string -> option nat)
  (repl : nat -> string -> string) (s : string) : string :=
  render repl 0 (pieces m s).

End Re.

(** ** The dispatch effect

    A computation that hands texts to the translation service yields its
    value together with the texts handed over. *)

Record Dispatch (A : Type) : Type := Sent { value : A; sent : list string }.
Arguments Sent {A} _ _.
Arguments value {A} _.
Arguments sent {A} _.

#[global] Instance Dispatch_ret : MRet Dispatch := fun A a => Sent a [].
#[global] Instance Dispatch_fmap : FMap Dispatch := fun A B f m =>
  Sent (f (value m)) (sent m).
#[global] Instance Dispatch_bind : MBind Dispatch := fun A B f m =>
  let r := f (value m) in Sent (value r) (sent m ++ sent r).

(** [await translator.translate(t, dest=TARGET_LANG)] under [try]:
    [None] stands for the exception. *)
Definition call_client (client : string -> option string) (t : string)
  : Dispatch (option string) :=
  Sent (client t) [t].

(** ** asyncio *)

Module Async.

(** [await asyncio.gather] of the tasks once every task has run: the values
    in the order of the tasks.  The texts sent are listed task by
    task. *)
Definition gather {A} (tasks : list (Dispatch A)) : Dispatch (list A) :=
  Sent (value <$> tasks) (mjoin (sent <$> tasks)).

(** [gather] with the completion order made explicit.  Each task that
    completes stores its value in the slot of its own position; the list
    is handed back once no slot is empty.  [order] lists the positions
    of the tasks in the order in which they complete. *)
Definition gather_as_completed {A} (order : list nat) (results : list A)
  : option (list A) :=
  mapM id
    (foldl (fun slots i => <[i := results !! i]> slots)
       (replicate (length results) None) order).

(** *** The semaphore

    What a translation task does with the semaphore and the service, in
    program order: [Acquire] and [Release] are the entry and the exit of
    [async with semaphore], [Sleep] is the jitter delay, [Translate] the
    awaited call of the service.  An exception of the call is caught
    inside the block, so the exit follows on that path too. *)
Inductive instr : Type := Acquire | Release | Sleep | Translate.

(** A task: what is left of its program, and whether its call of the
    service is outstanding. *)
Record task : Type := Task { code : list instr; in_call : bool }.

(** The semaphore counter and the tasks of all files of the batch. *)
Record pool : Type := Pool { permits : nat; tasks : list task }.

Definition initial (limit : nat) : pool := Pool limit [].

Section Steps.
(** The programs that a driver starts. *)
Variable is_task : list instr -> Prop.

Inductive step : pool -> pool -> Prop :=
| step_spawn p c :
    is_task c ->
    step p (Pool (permits p) (tasks p ++ [Task c false]))
| step_acquire p i k n :
    tasks p !! i = Some (Task (Acquire :: k) false) ->
    permits p = S n ->
    step p (Pool n (<[i := Task k false]> (tasks p)))
| step_release p i k :
    tasks p !! i = Some (Task (Release :: k) false) ->
    step p (Pool (S (permits p)) (<[i := Task k false]> (tasks p)))
| step_sleep p i k :
    tasks p !! i = Some (Task (Sleep :: k) false) ->
    step p (Pool (permits p) (<[i := Task k false]> (tasks p)))
| step_call p i k :
    tasks p !! i = Some (Task (Translate :: k) false) ->
    step p (Pool (permits p) (<[i := Task (Translate :: k) true]> (tasks p)))
| step_return p i k :
    tasks p !! i = Some (Task (Translate :: k) true) ->
    step p (Pool (permits p) (<[i := Task k false]> (tasks p))).

Definition reachable (limit : nat) (p : pool) : Prop :=
  rtc step (initial limit) p.
End Steps.

(** The number of calls of the service that are outstanding. *)
Definition outstanding (p : pool) : nat :=
  length (List.filter in_call (tasks p)).

(** Whether a task with [code] left is inside the block of the
    semaphore: its next semaphore step is the exit. *)
Fixpoint holding (code : list instr) : bool :=
  match code with
  | [] => false
  | Acquire :: _ => false
  | Release :: _ => true
  | _ :: k => holding k
  end.

(** The number of tasks inside the block. *)
Definition held (p : pool) : nat :=
  length (List.filter (fun t => holding (code t)) (tasks p)).

(** The programs in which entry and exit alternate, from inside or from
    outside the block, and the service is called inside the block
    only. *)
Fixpoint bracketed (inside : bool) (code : list instr) : bool :=
  match code with
  | [] => negb inside
  | Acquire :: k => negb inside && bracketed true k
  | Release :: k => inside && bracketed false k
  | Sleep :: k => bracketed inside k
  | Translate :: k => inside && bracketed inside k
  end.

(** What holds of every task of a reachable pool: its program is
    bracketed, and its call is outstanding only while the call is its
    next step. *)
Definition task_ok (t : task) : Prop :=
  bracketed (holding (code t)) (code t) = true
  /\ (in_call t = true -> exists k, code t = Translate :: k).

(** The free permits and the tasks inside the block add up to the
    limit. *)
Definition pool_ok (limit : nat) (p : pool) : Prop :=
  permits p + held p = limit /\ Forall task_ok (tasks p).

Definition weight {A : Type} (f : A -> bool) (x : A) : nat :=
  if f x then 1 else 0.

End Async.

(** ** The C-family driver, [honyaku_cpp.py] *)

Module Cpp.
Import PyStr.

(** The longest run of characters other than the line feed. *)
Fixpoint line_rest (s : string) : string :=
  match s with
  | EmptyString => EmptyString
  | String c r => if is_newline c then EmptyString else String c (line_rest r)
  end.

(** [comment_pattern]: two slashes and the rest of the line, or else a
    slash and a star, then as few characters as possible, then a star
    and a slash. *)
Definition comment_pattern (s : string) : option nat :=
  match s with
  | String "/" (String "/" r) => Some (2 + String.length (line_rest r))
  | String "/" (String "*" r) =>
      match String.index 0 "*/" r with
      | Some k => Some (2 + k + 2)
      | None => None
      end
  | _ => None
  end.

(** [text.strip().lstrip('//').lstrip('/*').rstrip('*/').strip()]. *)
Definition clean (text : string) : string :=
  strip
    (rstrip_of (fun c => mem c "*/")
       (lstrip_of (fun c => mem c "/*")
          (lstrip_of (fun c => mem c "//") (strip text)))).

Definition translate_with_semaphore (client : string -> option string)
  (text : string) : Dispatch string :=
  if negb (has_alnum text) then mret text
  else
    let clean_text := clean text in
    if negb (truthy clean_text) then mret text
    else
      translated ← call_client client clean_text;
      match translated with
      | None => mret text
      | Some t =>
          let indent := indent_of text in
          if startswith "//" (lstrip text) then
            mret (indent +:+ "// " +:+ t)
          else if startswith "/*" (lstrip text) then
            mret (indent +:+ "/* " +:+ t +:+ " */")
          else mret t
      end.

(** The semaphore and service steps of one call of the wrapper. *)
Definition task_path (text : string) : list Async.instr :=
  if negb (has_alnum text) then []
  else if negb (truthy (clean text))
  then [Async.Acquire; Async.Sleep; Async.Release]
  else [Async.Acquire; Async.Sleep; Async.Translate; Async.Release].

(** [dict(zip(comments, translated_comments))]: a later pair replaces an
    earlier one with the same key. *)
Definition dict_of_zip (keys vals : list string) : gmap string string :=
  foldl (fun d kv => <[kv.1 := kv.2]> d) ∅ (zip keys vals).

(** [translation_map.get(original_comment, original_comment)]. *)
Definition replace_comment (translation_map : gmap string string)
  (original_comment : string) : string :=
  default original_comment (translation_map !! original_comment).

(** The tasks of one file; task [j] talks to the service through
    [client j]. *)
Definition tasks_of (client : nat -> string -> option string)
  (comments : list string) : list (Dispatch string) :=
  imap (fun j comment => translate_with_semaphore (client j) comment)
    comments.

(** [process_file], from the text read to the text written. *)
Definition process_file (client : nat -> string -> option string)
  (content : string) : Dispatch string :=
  let comments := Re.finditer comment_pattern content in
  match comments with
  | [] => mret content
  | _ =>
      translated_comments ← Async.gather (tasks_of client comments);
      let translation_map := dict_of_zip comments translated_comments in
      mret (Re.sub comment_pattern (replace_comment translation_map) content)
  end.

End Cpp.

(** ** The Markdown driver, [honyaku_md.py] *)

Module Md.
Import PyStr.

(** [CODE_BLOCK_MARKER]: three backticks. *)
Definition CODE_BLOCK_MARKER : string := "```".

(** The inline-code pattern: a backtick, as few non-backtick characters
    as possible, a backtick. *)
Definition inline_code_pattern (s : string) : option nat :=
  match s with
  | String "`" r =>
      match String.index 0 "`" r with
      | Some k => Some (k + 2)
      | None => None
      end
  | _ => None
  end.

(** The placeholder made from the number of snippets stored so far. *)
Definition placeholder (n : nat) : string :=
  "__INLINECODE" +:+ pretty n +:+ "__".

(** [inline_code_snippets] after the substitution, in insertion order:
    every match adds one new key. *)
Definition inline_code_snippets (line : string) : list (string * string) :=
  imap (fun k code => (placeholder k, code))
    (Re.finditer inline_code_pattern line).

Definition line_with_placeholders (line : string) : string :=
  Re.sub_counting inline_code_pattern (fun k _ => placeholder k) line.

(** The pattern that restores a placeholder: white space, the
    placeholder, white space.  A placeholder starts with an underscore,
    so the leading run of white space is taken whole. *)
Definition restore_pattern (ph : string) : string -> option nat :=
  Re.spaced ph.

(** *** Replacement templates

    The replacement of [re.sub] is a string here, so [re] reads it as a
    template: a backslash starts an escape, and a template that does not
    parse raises.  The pattern has no groups, so the one group a template
    may name is group 0, the whole match.  The escapes are those of the
    template parser of CPython's [re]. *)

Inductive tpart : Type :=
| TLit (s : string)
| TWhole.

Definition is_digit (c : ascii) : bool := between 48 57 (code c).
Definition is_octdigit (c : ascii) : bool := between 48 55 (code c).
Definition is_ascii_letter (c : ascii) : bool :=
  between 65 90 (code c) || between 97 122 (code c).
Definition oct (c : ascii) : nat := code c - 48.

Fixpoint forallb (p : ascii -> bool) (s : string) : bool :=
  match s with
  | EmptyString => true
  | String c r => p c && forallb p r
  end.

Definition chr (n : nat) : string := String (ascii_of_nat n) EmptyString.

(** The escape whose backslash has just been read: the number of
    characters it takes after the backslash, and what it stands for. *)
Definition escape_at (r : string) : option (nat * tpart) :=
  match r with
  | EmptyString => None
  | String "g" (String "<" name_on) =>
      match String.index 0 ">" name_on with
      | Some k =>
          let name := take k name_on in
          if truthy name && forallb (fun c => (code c =? 48)%nat) name
          then Some (k + 3, TWhole) else None
      | None => None
      end
  | String "g" _ => None
  | String "0" r1 =>
      match r1 with
      | String d1 r2 =>
          if is_octdigit d1 then
            match r2 with
            | String d2 _ =>
                if is_octdigit d2
                then Some (3, TLit (chr (oct d1 * 8 + oct d2)))
                else Some (2, TLit (chr (oct d1)))
            | EmptyString => Some (2, TLit (chr (oct d1)))
            end
          else Some (1, TLit (chr 0))
      | EmptyString => Some (1, TLit (chr 0))
      end
  | String c r1 =>
      if is_digit c then
        match r1 with
        | String d1 (String d2 _) =>
            if is_octdigit c && is_octdigit d1 && is_octdigit d2 then
              let v := oct c * 64 + oct d1 * 8 + oct d2 in
              if (v <=? 255)%nat then Some (3, TLit (chr v)) else None
            else None
        | _ => None
        end
      else if ascii_dec c "a" then Some (1, TLit (chr 7))
      else if ascii_dec c "b" then Some (1, TLit (chr 8))
      else if ascii_dec c "f" then Some (1, TLit (chr 12))
      else if ascii_dec c "n" then Some (1, TLit (chr 10))
      else if ascii_dec c "r" then Some (1, TLit (chr 13))
      else if ascii_dec c "t" then Some (1, TLit (chr 9))
      else if ascii_dec c "v" then Some (1, TLit (chr 11))
      else if ascii_dec c "\" then Some (1, TLit "\")
      else if is_ascii_letter c then None
      else Some (1, TLit (String "\" (String c EmptyString)))
  end.

Fixpoint parse_template (skip : nat) (s : string) : option (list tpart) :=
  match s with
  | EmptyString => Some []
  | String c r =>
      match skip with
      | S k => parse_template k r
      | O =>
          if ascii_dec c "\" then
            match escape_at r with
            | Some (n, p) => cons p <$> parse_template n r
            | None => None
            end
          else cons (TLit (String c EmptyString)) <$> parse_template 0 r
      end
  end.

Fixpoint expand (parts : list tpart) (whole : string) : string :=
  match parts with
  | [] => EmptyString
  | TLit s :: r => s +:+ expand r whole
  | TWhole :: r => whole +:+ expand r whole
  end.

(** One turn of the restoring loop; [None] when [re.sub] raises. *)
Definition restore_one (translated_line : string) (item : string * string)
  : option string :=
  parts ← parse_template 0 item.2;
  Some (Re.sub (restore_pattern item.1) (expand parts) translated_line).

Definition restore (snippets : list (string * string))
  (translated_line : string) : option string :=
  foldl (fun acc item => acc ≫= fun l => restore_one l item)
    (Some translated_line) snippets.

Definition translate_line (client : string -> option string) (line : string)
  : Dispatch string :=
  if negb (has_alnum line) then mret line
  else
    let snippets := inline_code_snippets line in
    let with_placeholders := line_with_placeholders line in
    if negb (has_alnum with_placeholders) then mret line
    else
      translated ← call_client client with_placeholders;
      match translated ≫= restore snippets with
      | Some translated_line => mret translated_line
      | None => mret line
      end.

(** The semaphore and service steps of one call of [translate_line]. *)
Definition task_path (line : string) : list Async.instr :=
  if negb (has_alnum line) then []
  else if negb (has_alnum (line_with_placeholders line)) then []
  else [Async.Acquire; Async.Sleep; Async.Translate; Async.Release].

(** An entry of [lines_to_translate_info]. *)
Record info : Type := Info { index : nat; original_line : string }.

Definition is_fence (line : string) : bool :=
  startswith CODE_BLOCK_MARKER (strip line).

Definition is_eol (c : ascii) : bool := mem c (String "010" (String "013" "")).

(** [line.rstrip('\n\r')]. *)
Definition rstrip_eol (line : string) : string := rstrip_of is_eol line.

(** The number of fence lines among the first [i] lines, and whether
    line [i] lies behind an odd number of them. *)
Definition fences_before (lines : list string) (i : nat) : nat :=
  length (List.filter is_fence (firstn i lines)).

Definition inside_code_block (lines : list string) (i : nat) : bool :=
  Nat.odd (fences_before lines i).

(** The scanning loop from line [i] on. *)
Fixpoint segment (i : nat) (in_code_block : bool) (lines : list string)
  : list info :=
  match lines with
  | [] => []
  | line :: rest =>
      if is_fence line then segment (S i) (negb in_code_block) rest
      else if in_code_block then segment (S i) in_code_block rest
      else if negb (truthy (rstrip_eol line)) then
        segment (S i) in_code_block rest
      else Info i line :: segment (S i) in_code_block rest
  end.

Definition tasks_of (client : nat -> string -> option string)
  (infos : list info) : list (Dispatch string) :=
  imap (fun j inf => translate_line (client j) (rstrip_eol (original_line inf)))
    infos.

(** [info['original_line'][len(info['original_line'].rstrip('\n\r')):]]. *)
Definition original_ending (inf : info) : string :=
  drop (String.length (rstrip_eol (original_line inf))) (original_line inf).

(** The loop that writes the results back into [lines]. *)
Definition write_back (lines : list string) (infos : list info)
  (translated_results : list string) : list string :=
  foldl (fun ls p => <[index p.1 := p.2 +:+ original_ending p.1]> ls)
    lines (zip infos translated_results).

Definition process_lines (client : nat -> string -> option string)
  (lines : list string) : Dispatch (list string) :=
  let infos := segment 0 false lines in
  match infos with
  | [] => mret lines
  | _ =>
      translated_results ← Async.gather (tasks_of client infos);
      mret (write_back lines infos translated_results)
  end.

(** The same with the completion order of the tasks given; [None] when
    [gather] does not return. *)
Definition process_lines_as_completed
  (client : nat -> string -> option string) (order : list nat)
  (lines : list string) : option (list string) :=
  let infos := segment 0 false lines in
  match infos with
  | [] => Some lines
  | _ =>
      translated_results ←
        Async.gather_as_completed order (value <$> tasks_of client infos);
      Some (write_back lines infos translated_results)
  end.

(** [process_file], from the text read to the text written. *)
Definition process_file (client : nat -> string -> option string)
  (content : string) : Dispatch string :=
  concat <$> process_lines client (readlines content).

End Md.

(** ** The TeX driver, [honyaku_tex.py] *)

Module Tex.
Import PyStr.

Definition translate_with_semaphore (client : string -> option string)
  (text : string) : Dispatch string :=
  if negb (has_alnum text) then mret text
  else
    let clean_text := strip text in
    if negb (truthy clean_text) then mret text
    else
      translated ← call_client client clean_text;
      match translated with
      | None => mret text
      | Some t => mret (indent_of text +:+ t +:+ LF)
      end.

(** The semaphore and service steps of one call of the wrapper. *)
Definition task_path (text : string) : list Async.instr :=
  if negb (has_alnum text) then []
  else if negb (truthy (strip text))
  then [Async.Acquire; Async.Sleep; Async.Release]
  else [Async.Acquire; Async.Sleep; Async.Translate; Async.Release].

(** [item_pattern]: at the start of the line, white space, the item
    command, white space.  The value is the length of the match. *)
Definition item_pattern (line : string) : option nat :=
  Re.spaced "\item" line.

(** [begin_pattern.search(line)]: a backslash and an opening brace. *)
Definition begin_pattern (line : string) : bool := contains "\{" line.

(** [end_pattern.search(line)]: a backslash and a closing brace. *)
Definition end_pattern (line : string) : bool := contains "\}" line.

(** The scanning loop from line [i] on: the pairs of
    [line_indices_to_translate] and [lines_to_translate]. *)
Fixpoint segment (i : nat) (in_code_block : bool) (lines : list string)
  : list (nat * string) :=
  match lines with
  | [] => []
  | line :: rest =>
      match item_pattern line with
      | Some n =>
          let text_part := drop n line in
          if truthy (strip text_part)
          then (i, text_part) :: segment (S i) in_code_block rest
          else segment (S i) in_code_block rest
      | None =>
          if begin_pattern line then segment (S i) true rest
          else if end_pattern line then segment (S i) false rest
          else if in_code_block || mem "\" line then
            segment (S i) in_code_block rest
          else if negb (truthy (strip line)) then
            segment (S i) in_code_block rest
          else (i, line) :: segment (S i) in_code_block rest
      end
  end.

Definition tasks_of (client : nat -> string -> option string)
  (lines_to_translate : list string) : list (Dispatch string) :=
  imap (fun j text => translate_with_semaphore (client j) text)
    lines_to_translate.

(** The line that replaces [original_line]: the item command, when the
    line has one, in front of the translation. *)
Definition rebuilt (original_line translated_text : string) : string :=
  match item_pattern original_line with
  | Some n => take n original_line +:+ lstrip translated_text
  | None => translated_text
  end.

(** One turn of the loop that fills [translated_lines]. *)
Definition put_back (lines : list string) (translated_lines : list string)
  (p : nat * string) : list string :=
  match lines !! p.1 with
  | Some original_line =>
      <[p.1 := rebuilt original_line p.2]> translated_lines
  | None => translated_lines
  end.

Definition write_back (lines : list string)
  (line_indices_to_translate : list nat) (translated_texts : list string)
  : list string :=
  foldl (put_back lines) lines
    (zip line_indices_to_translate translated_texts).

Definition process_lines (client : nat -> string -> option string)
  (lines : list string) : Dispatch (list string) :=
  let found := segment 0 false lines in
  match found with
  | [] => mret lines
  | _ =>
      translated_texts ← Async.gather (tasks_of client found.*2);
      mret (write_back lines found.*1 translated_texts)
  end.

(** The same with the completion order of the tasks given. *)
Definition process_lines_as_completed
  (client : nat -> string -> option string) (order : list nat)
  (lines : list string) : option (list string) :=
  let found := segment 0 false lines in
  match found with
  | [] => Some lines
  | _ =>
      translated_texts ←
        Async.gather_as_completed order (value <$> tasks_of client found.*2);
      Some (write_back lines found.*1 translated_texts)
  end.

(** [process_file], from the text read to the text written. *)
Definition process_file (client : nat -> string -> option string)
  (content : string) : Dispatch string :=
  concat <$> process_lines client (readlines content).

End Tex.

(** ** The HTML driver, [honyaku.py]

    The parsed document is a forest of strings and tags; the parser and
    the serialiser belong to the HTML library.  Every call of one run
    is answered by the same [client]. *)

Module Html.
Import PyStr.

Definition EXCLUDE_TAGS : list string :=
  ["a"; "code"; "script"; "style"; "head"; "title"; "meta"; "[document]"].

Definition SPECIAL_HANDLING_TAGS : list string := ["pre"].

(** The classes of strings of the HTML library other than plain text.
    All of them are strings to the walk; only plain text and CDATA
    sections count as text of a tag. *)
Inductive string_class : Type :=
| Comment
| CData
| ProcessingInstruction
| Declaration
| Doctype
| Stylesheet
| Script
| TemplateString
| RubyTextString
| RubyParenthesisString.

(** A node: a plain text, a string of another class, or a tag. *)
#[warnings="-register-all"] Inductive node : Type :=
| Text (s : string)
| Str (cls : string_class) (s : string)
| Element (name : string) (attrs : list (string * string))
    (children : list node).

(** [name in EXCLUDE_TAGS or name in SPECIAL_HANDLING_TAGS]. *)
Definition skipped (name : string) : bool :=
  bool_decide (name ∈ EXCLUDE_TAGS) || bool_decide (name ∈ SPECIAL_HANDLING_TAGS).

(** The wrapper hands the text over as it is and answers [None] when
    the call raises. *)
Definition translate_with_semaphore (client : string -> option string)
  (text : string) : Dispatch (option string) :=
  call_client client text.

(** The semaphore and service steps of one call of the wrapper. *)
Definition task_path (text : string) : list Async.instr :=
  [Async.Acquire; Async.Translate; Async.Release].

Definition translate_text_list (client : string -> option string)
  (texts : list string) : Dispatch (list string) :=
  let tasks : list (Dispatch (option string)) :=
    translate_with_semaphore client
      <$> List.filter (fun text => truthy (strip text)) texts in
  translated_results ← Async.gather tasks;
  mret (omap id (translated_results : list (option string))).

(** *** Special tags *)

(** The comment of a line of a special tag, when it has one. *)
Definition comment_text_of (line : string) : option string :=
  let stripped_line := strip line in
  if startswith "//" stripped_line then
    let comment_text :=
      strip (lstrip_of (fun c => mem c "//") stripped_line) in
    if truthy comment_text then Some comment_text else None
  else None.

(** The first loop over the lines, from line [i] on: the pairs
    appended to [lines_to_translate] and stored in [translation_map]. *)
Fixpoint collect (i : nat) (lines : list string) : list (string * nat) :=
  match lines with
  | [] => []
  | line :: rest =>
      match comment_text_of line with
      | Some comment_text => (comment_text, i) :: collect (S i) rest
      | None => collect (S i) rest
      end
  end.

(** One turn of the loop over the zipped pairs.  The list of results
    holds no [None] any more, so the test for it never fires. *)
Definition put_back (translation_map : gmap string nat)
  (lines : list string) (p : string * string) : list string :=
  match translation_map !! p.1 with
  | Some line_index =>
      match lines !! line_index with
      | Some l =>
          <[line_index := slice_to l (find "//" l) +:+ "// " +:+ p.2]> lines
      | None => lines
      end
  | None => lines
  end.

(** The new text of a special tag from its text. *)
Definition process_special (client : string -> option string)
  (text : string) : Dispatch string :=
  let lines := split_nl text in
  let found := collect 0 lines in
  let lines_to_translate := found.*1 in
  let translation_map : gmap string nat :=
    foldl (fun d p => <[p.1 := p.2]> d) ∅ found in
  match lines_to_translate with
  | [] => mret (join_nl lines)
  | _ =>
      translated_comments ← translate_text_list client lines_to_translate;
      let original_texts_for_mapping :=
        List.filter (fun text => truthy (strip text)) lines_to_translate in
      mret (join_nl
              (foldl (put_back translation_map) lines
                 (zip original_texts_for_mapping translated_comments)))
  end.

(** [tag.get_text()]. *)
Fixpoint get_text (n : node) : string :=
  match n with
  | Text s => s
  | Str CData s => s
  | Str _ _ => EmptyString
  | Element _ _ children => concat (get_text <$> children)
  end.

(** [soup.find_all(SPECIAL_HANDLING_TAGS)]: document order, nested tags
    included. *)
Fixpoint find_all_special (n : node) : list node :=
  match n with
  | Text _ | Str _ _ => []
  | Element name _ children =>
      (if bool_decide (name ∈ SPECIAL_HANDLING_TAGS) then [n] else [])
      ++ mjoin (find_all_special <$> children)
  end.

(** The tree after the loop over the special tags.  Setting the string
    of a tag detaches its children, so a special tag inside another one
    leaves the tree. *)
Fixpoint with_special_texts (client : string -> option string) (n : node)
  : node :=
  match n with
  | Text _ | Str _ _ => n
  | Element name attrs children =>
      if bool_decide (name ∈ SPECIAL_HANDLING_TAGS)
      then Element name attrs [Text (value (process_special client (get_text n)))]
      else Element name attrs (with_special_texts client <$> children)
  end.

Definition special_step (client : string -> option string)
  (soup : list node) : Dispatch (list node) :=
  Sent (with_special_texts client <$> soup)
    (mjoin ((fun tag => sent (process_special client (get_text tag)))
              <$> mjoin (find_all_special <$> soup))).

(** *** The recursive walk *)

Section Children.
Variable visit : node -> Dispatch node.

(** The loop over the children of an element, one after the other. *)
Fixpoint for_each (l : list node) : Dispatch (list node) :=
  match l with
  | [] => mret []
  | child :: rest =>
      child' ← visit child;
      rest' ← for_each rest;
      mret (child' :: rest')
  end.
End Children.

(** [parent_name] is [element.parent.name], which the walk reads for
    text nodes only. *)
Fixpoint translate_element (client : string -> option string)
  (parent_name : string) (element : node) {struct element} : Dispatch node :=
  match element with
  | Element name attrs children =>
      if skipped name then mret element
      else
        children' ← for_each (translate_element client name) children;
        mret (Element name attrs children')
  | Text s | Str _ s =>
      if truthy (strip s) then
        if negb (skipped parent_name) then
          translated_text ← translate_with_semaphore client s;
          match translated_text with
          | Some t => if truthy t then mret (Text t) else mret element
          | None => mret element
          end
        else mret element
      else mret element
  end.

Section First.
Variable within : node -> option (Dispatch node).

(** The first node of a list in which [within] finds its target, that
    node replaced. *)
Fixpoint first_of (l : list node) : option (Dispatch (list node)) :=
  match l with
  | [] => None
  | n :: rest =>
      match within n with
      | Some n' => Some ((fun c => c :: rest) <$> n')
      | None =>
          match first_of rest with
          | Some rest' => Some (cons n <$> rest')
          | None => None
          end
      end
  end.
End First.

(** [soup.body]: the first element named body in document order, and
    the tree with that element replaced. *)
Fixpoint on_body (f : node -> Dispatch node) (n : node) {struct n}
  : option (Dispatch node) :=
  match n with
  | Text _ | Str _ _ => None
  | Element name attrs children =>
      if bool_decide (name = "body") then Some (f n)
      else
        match first_of (on_body f) children with
        | Some children' => Some (Element name attrs <$> children')
        | None => None
        end
  end.

(** [process_file], from the parsed document to the document written. *)
Definition process_file (client : string -> option string)
  (soup : list node) : Dispatch (list node) :=
  soup' ← special_step client soup;
  match first_of (on_body (translate_element client "[document]")) soup' with
  | Some walked => walked
  | None => mret soup'
  end.

(** The tree in which every special tag holds its text as one text
    node. *)
Fixpoint with_flat_special (n : node) : node :=
  match n with
  | Text _ | Str _ _ => n
  | Element name attrs children =>
      if bool_decide (name ∈ SPECIAL_HANDLING_TAGS)
      then Element name attrs [Text (get_text n)]
      else Element name attrs (with_flat_special <$> children)
  end.

(** Induction over trees. *)
Section Induction.
Variable P : node -> Prop.
Hypothesis on_text : forall s, P (Text s).
Hypothesis on_str : forall cls s, P (Str cls s).
Hypothesis on_element :
  forall name attrs children,
    Forall P children -> P (Element name attrs children).

Fixpoint node_induction (n : node) : P n :=
  match n with
  | Text s => on_text s
  | Str cls s => on_str cls s
  | Element name attrs children =>
      on_element name attrs children
        ((fix all (l : list node) : Forall P l :=
            match l with
            | [] => @List.Forall_nil node P
            | c :: r =>
                @List.Forall_cons node P c r (node_induction c) (all r)
            end) children)
  end.
End Induction.

(** What the serialiser puts in front of and behind a string of a
    class. *)
Definition affixes (cls : string_class) : string * string :=
  match cls with
  | Comment => ("<!--", "-->")
  | CData => ("<![CDATA[", "]]>")
  | ProcessingInstruction => ("<?", ">")
  | Declaration => ("<?", "?>")
  | Doctype => ("<!DOCTYPE ", ">" +:+ LF)
  | _ => (EmptyString, EmptyString)
  end.

(** The markup of a tree whose texts and attribute values hold no
    markup characters. *)
Fixpoint serialize (n : node) : string :=
  match n with
  | Text s => s
  | Str cls s => (affixes cls).1 +:+ s +:+ (affixes cls).2
  | Element name attrs children =>
      "<" +:+ name
      +:+ concat ((fun kv => " " +:+ kv.1 +:+ "='" +:+ kv.2 +:+ "'") <$> attrs)
      +:+ ">" +:+ concat (serialize <$> children)
      +:+ "</" +:+ name +:+ ">"
  end.

End Html.

(** ** Test doubles of the scenarios *)

Module Scenario.
Import PyStr.

(** A service that answers every text with its upper-case form. *)
Definition uppercase : string -> option string := fun s => Some (upper s).

(** A service that knows one text and fails on every other one. *)
Definition only (original translated : string) : string -> option string :=
  fun s => if String.eqb s original then Some translated else None.

(** A service that fails on every text. *)
Definition down : string -> option string := fun _ => None.

(** The upper-casing service, out of order for one text. *)
Definition uppercase_but (broken : string) : string -> option string :=
  fun s => if String.eqb s broken then None else Some (upper s).

End Scenario.

(** ** A batch

    The tasks that the drivers start, each for some text. *)

Module Batch.

Definition driver_task (c : list Async.instr) : Prop :=
  exists text,
    c = Html.task_path text \/ c = Cpp.task_path text
    \/ c = Md.task_path text \/ c = Tex.task_path text.

End Batch.

(** ** Views of the HTML driver *)

Module HtmlView.
Import PyStr Html.

(** A tree without its strings: the tags, their attributes and the
    places of the nodes, every string, of whatever class, reduced to an
    empty text. *)
Fixpoint shape (n : node) : node :=
  match n with
  | Text _ | Str _ _ => Text EmptyString
  | Element name attrs children => Element name attrs (shape <$> children)
  end.

(** The node reached from [n] by going down to the child of the given
    index, step by step. *)
Fixpoint subtree (path : list nat) (n : node) : option node :=
  match path with
  | [] => Some n
  | i :: rest =>
      match n with
      | Element _ _ children =>
          match children !! i with
          | Some c => subtree rest c
          | None => None
          end
      | Text _ | Str _ _ => None
      end
  end.

(** The lines of a special tag after the loop over the zipped pairs,
    before they are joined. *)
Definition special_lines (client : string -> option string) (text : string)
  : list string :=
  let lines := split_nl text in
  let found := collect 0 lines in
  let translation_map : gmap string nat :=
    foldl (fun d p => <[p.1 := p.2]> d) ∅ found in
  foldl (put_back translation_map) lines
    (zip (List.filter (fun text => truthy (strip text)) found.*1)
       (value (translate_text_list client found.*1))).

(** The line on which a pair of the zipped list is written, and the
    text written there when the line still is the line [l] of the tag. *)
Definition target (translation_map : gmap string nat) (p : string * string)
  : nat :=
  default 0 (translation_map !! p.1).

Definition rewritten (l translated : string) : string :=
  slice_to l (find "//" l) +:+ "// " +:+ translated.

End HtmlView.

(** ** Updates of dictionaries and lists *)

Module Store.

(** [d[k] = v]. *)
Definition assign {V : Type} (d : gmap string V) (kv : string * V)
  : gmap string V :=
  <[kv.1 := kv.2]> d.

(** [ls[key p] = val p]. *)
Definition put {A B : Type} (key : B -> nat) (val : B -> A)
  (ls : list A) (p : B) : list A :=
  <[key p := val p]> ls.

End Store.

(** ** Files in text mode

    The C-family, the Markdown and the TeX driver read with
    [open(path, 'r', encoding='utf-8', errors='ignore')] and write with
    [open(path, 'w', encoding='utf-8')], both without [newline]. *)

Module Io.
Import PyStr.

Definition is_cr (c : ascii) : bool := (code c =? 13)%nat.

(** The carriage return as a text. *)
Definition CR : string := String "013" EmptyString.

(** A continuation byte of UTF-8. *)
Definition is_continuation (b : byte) : bool := between 128 191 (Byte.to_nat b).

(** Decoding as UTF-8 with [errors='ignore'].  A byte below 128 is its
    character; the lead bytes [C2] and [C3] with a continuation byte
    give the characters from 128 to 255; a byte that starts no sequence,
    and a lead byte without its continuation byte, is ignored.  The lead
    bytes from [C4] to [F4] start the sequences of the characters from
    256 on, which are no characters of this development: the answer is
    [None] for a file that holds one. *)
Fixpoint decode (file : list byte) : option string :=
  match file with
  | [] => Some EmptyString
  | b :: rest =>
      let n := Byte.to_nat b in
      if (n <? 128)%nat then
        match decode rest with
        | Some text => Some (String (ascii_of_byte b) text)
        | None => None
        end
      else if between 194 195 n then
        match rest with
        | b2 :: rest' =>
            if is_continuation b2 then
              match decode rest' with
              | Some text =>
                  Some (String (ascii_of_nat ((n - 194) * 64 + Byte.to_nat b2))
                          text)
              | None => None
              end
            else decode rest
        | [] => Some EmptyString
        end
      else if between 196 244 n then None
      else decode rest
  end.

(** Encoding as UTF-8: one byte for a character below 128, two bytes
    for the others. *)
Definition encode_char (c : ascii) : list byte :=
  let n := code c in
  if (n <? 128)%nat then [byte_of_ascii c]
  else if (n <? 192)%nat then [xc2; byte_of_ascii c]
  else [xc3; byte_of_ascii (ascii_of_nat (n - 64))].

Fixpoint encode (text : string) : list byte :=
  match text with
  | EmptyString => []
  | String c r => (encode_char c ++ encode r)%list
  end.

(** Reading with universal newlines: a carriage return with the line
    feed after it, and a carriage return alone, are read as one line
    feed. *)
Fixpoint read_text (s : string) : string :=
  match s with
  | EmptyString => EmptyString
  | String c r =>
      if is_cr c then
        match r with
        | String d r' =>
            if is_newline d then String "010" (read_text r')
            else String "010" (read_text r)
        | EmptyString => String "010" EmptyString
        end
      else String c (read_text r)
  end.

(** Writing: every line feed is written as [os.linesep]. *)
Fixpoint write_text (linesep : string) (s : string) : string :=
  match s with
  | EmptyString => EmptyString
  | String c r =>
      if is_newline c then linesep +:+ write_text linesep r
      else String c (write_text linesep r)
  end.

(** A driver from the file read to the file written, [process] being
    the driver from the text read to the text written. *)
Definition through (linesep : string) (process : string -> Dispatch string)
  (file : list byte) : option (Dispatch (list byte)) :=
  match decode file with
  | Some text =>
      Some ((fun out => encode (write_text linesep out))
              <$> process (read_text text))
  | None => None
  end.

(** Every line of the text ends with a carriage return and a line feed,
    and there is no other carriage return or line feed. *)
Fixpoint crlf_only (s : string) : bool :=
  match s with
  | EmptyString => true
  | String c r =>
      if is_cr c then
        match r with
        | String d r' => is_newline d && crlf_only r'
        | EmptyString => false
        end
      else negb (is_newline c) && crlf_only r
  end.

End Io.

(** * Properties *)

(** Closed decidable statements are settled by evaluation. *)
Ltac by_decide := refine (bool_decide_unpack _ _); vm_compute; exact I.

(** ** Texts *)

#[local] Arguments String.append !_ _ / : simpl nomatch.

Section Texts.
Import PyStr.

Lemma append_nil_r (s : string) : s +:+ "" = s.
Proof. induction s as [|c s IH]; simpl; [done | by rewrite IH]. Qed.

Lemma append_assoc (a b c : string) : (a +:+ b) +:+ c = a +:+ (b +:+ c).
Proof. induction a as [|x a IH]; simpl; [done | by rewrite IH]. Qed.

Lemma length_append (a b : string) :
  String.length (a +:+ b) = String.length a + String.length b.
Proof. induction a as [|x a IH]; simpl; [done | by rewrite IH]. Qed.

Lemma take_drop (n : nat) (s : string) : take n s +:+ drop n s = s.
Proof.
  revert n; induction s as [|c s IH]; intros [|n]; simpl; try done.
  by rewrite IH.
Qed.

Lemma take_length_append (a b : string) : take (String.length a) (a +:+ b) = a.
Proof. induction a as [|x a IH]; simpl; [by destruct b | by rewrite IH]. Qed.

Lemma drop_length_append (a b : string) : drop (String.length a) (a +:+ b) = b.
Proof. induction a as [|x a IH]; simpl; [by destruct b | done]. Qed.

Lemma drop_add (n k : nat) (s : string) : drop (n + k) s = drop k (drop n s).
Proof.
  revert s; induction n as [|n IH]; intros s; simpl; [done|].
  destruct s; simpl; [by destruct k | apply IH].
Qed.

Lemma length_drop (n : nat) (s : string) :
  String.length (drop n s) = String.length s - n.
Proof.
  revert n; induction s as [|c s IH]; intros [|n]; simpl; try done.
Qed.

(** [lstrip] leaves a suffix. *)
Lemma lstrip_of_length (p : ascii -> bool) (s : string) :
  String.length (lstrip_of p s) <= String.length s.
Proof. induction s as [|c s IH]; simpl; [lia|]. destruct (p c); simpl; lia. Qed.

Lemma lstrip_of_suffix (p : ascii -> bool) (s : string) :
  drop (String.length s - String.length (lstrip_of p s)) s = lstrip_of p s.
Proof.
  induction s as [|c s IH]; simpl; [done|].
  destruct (p c) eqn:E; simpl.
  - pose proof (lstrip_of_length p s).
    replace (S (String.length s) - String.length (lstrip_of p s))
      with (S (String.length s - String.length (lstrip_of p s))) by lia.
    simpl. apply IH.
  - by rewrite Nat.sub_diag.
Qed.

Lemma lstrip_of_idemp (p : ascii -> bool) (s : string) :
  lstrip_of p (lstrip_of p s) = lstrip_of p s.
Proof.
  induction s as [|c s IH]; simpl; [done|].
  destruct (p c) eqn:E; [done | simpl; by rewrite E].
Qed.

Lemma lstrip_suffix (s : string) :
  drop (String.length s - String.length (lstrip s)) s = lstrip s.
Proof. apply lstrip_of_suffix. Qed.

Lemma lstrip_idemp (s : string) : lstrip (lstrip s) = lstrip s.
Proof. apply lstrip_of_idemp. Qed.

(** [rstrip] leaves a prefix. *)
Lemma rstrip_of_prefix (p : ascii -> bool) (s : string) :
  exists t, s = rstrip_of p s +:+ t.
Proof.
  induction s as [|c s [t IH]]; simpl; [by exists ""|].
  destruct (rstrip_of p s) eqn:E.
  - destruct (p c).
    + by exists (String c s).
    + exists s. done.
  - exists t. simpl in *. by rewrite <- IH.
Qed.

Lemma rstrip_of_rest (p : ascii -> bool) (s : string) :
  rstrip_of p s +:+ drop (String.length (rstrip_of p s)) s = s.
Proof.
  destruct (rstrip_of_prefix p s) as [t Ht].
  remember (rstrip_of p s) as r eqn:Hr. clear Hr.
  subst s. by rewrite drop_length_append.
Qed.

Lemma concat_readlines (s : string) : concat (readlines s) = s.
Proof.
  induction s as [|c s IH]; simpl; [done|].
  destruct (is_newline c); simpl; [by rewrite IH|].
  destruct (readlines s) as [|l ls] eqn:E; simpl in *.
  - by rewrite <- IH.
  - by rewrite <- IH.
Qed.

Lemma split_nl_nonempty (s : string) : split_nl s <> [].
Proof.
  induction s as [|c s IH]; simpl; [done|].
  destruct (is_newline c); [done|]. by destruct (split_nl s).
Qed.

Lemma is_newline_eq (c : ascii) : is_newline c = true -> c = "010"%char.
Proof.
  unfold is_newline, code. intros H. apply Nat.eqb_eq in H.
  rewrite <- (ascii_nat_embedding c). by rewrite H.
Qed.

Lemma join_split_nl (s : string) : join_nl (split_nl s) = s.
Proof.
  induction s as [|c s IH]; simpl; [done|].
  pose proof (split_nl_nonempty s) as Hne.
  destruct (is_newline c) eqn:E.
  - apply is_newline_eq in E. subst c.
    destruct (split_nl s) as [|l ls] eqn:Es; [done|].
    simpl in *. by rewrite IH.
  - destruct (split_nl s) as [|l ls] eqn:Es; [done|].
    destruct ls; simpl in *; by rewrite <- IH.
Qed.

End Texts.

(** ** Scenarios of the drivers *)

Section Scenarios.
Import PyStr.

(** C6.  In the C-family driver a file that consists of the line
    [    // hello world], with or without its line feed, and a service
    that answers [hello world] with [ABC], yield the line [    // ABC]:
    the four spaces of indentation, the two slashes and the space behind
    them surround the translated text, and [hello world] is the one text
    handed to the service. *)
Theorem cpp_line_comment_scenario (client : nat -> string -> option string) :
  (forall j, client j "hello world" = Some "ABC") ->
  Cpp.process_file client "    // hello world"
    = Sent "    // ABC" ["hello world"]
  /\ Cpp.process_file client ("    // hello world" +:+ LF)
    = Sent ("    // ABC" +:+ LF) ["hello world"].
Proof.
  intros H. split; vm_compute; rewrite H; reflexivity.
Qed.

Lemma cpp_line_comment_scenario_witness :
  Cpp.process_file (fun _ => Scenario.only "hello world" "ABC")
    "    // hello world"
    = Sent "    // ABC" ["hello world"]
  /\ Cpp.process_file (fun _ => Scenario.only "hello world" "ABC")
       ("    // hello world" +:+ LF)
    = Sent ("    // ABC" +:+ LF) ["hello world"].
Proof.
  apply (cpp_line_comment_scenario (fun _ => Scenario.only "hello world" "ABC")).
  intros j. reflexivity.
Defined.

(** The line of the inline-code scenario is rebuilt without the spaces
    around the code span. *)
Lemma md_inline_code_line :
  Md.translate_line Scenario.uppercase "Use `foo()` to start."
  = Sent "USE`foo()`TO START." ["Use __INLINECODE0__ to start."].
Proof. vm_compute. reflexivity. Qed.

(** C4, as stated, fails: under the upper-casing service the line
    [Use `foo()` to start.] does not come out as
    [USE `foo()` TO START.]. *)
Lemma md_inline_code_scenario_spaces_lost :
  value (Md.translate_line Scenario.uppercase "Use `foo()` to start.")
  <> "USE `foo()` TO START.".
Proof. rewrite md_inline_code_line. simpl. discriminate. Qed.

(** C4, amended.  In the Markdown driver the line
    [Use `foo()` to start.] under the upper-casing service comes out as
    [USE`foo()`TO START.]: the code span is kept as it is, the prose
    around it is upper-cased, and the white space next to the
    placeholder, here the two spaces that separate the span from the
    prose, is removed when the span is put back.  The service sees the
    placeholder, not the span; a file that holds the line is rewritten
    the same way. *)
Theorem md_inline_code_scenario :
  Md.translate_line Scenario.uppercase "Use `foo()` to start."
  = Sent "USE`foo()`TO START." ["Use __INLINECODE0__ to start."]
  /\ Md.restore [("__INLINECODE0__", "`foo()`")] "USE __INLINECODE0__ TO START."
     = Some "USE`foo()`TO START."
  /\ value (Md.process_file (fun _ => Scenario.uppercase)
              ("Use `foo()` to start." +:+ LF))
     = "USE`foo()`TO START." +:+ LF.
Proof. repeat split; vm_compute; reflexivity. Qed.

(** C7.  In the TeX driver a line that the item pattern matches is
    settled by the first rule alone: whatever the block flag is and
    whatever else the line holds, the line adds its remainder to the
    texts to translate when the remainder is not blank, and the flag goes
    on unchanged.  On reassembly the matched command is put back in
    front of the translation, which loses its leading white space: the
    file [\item A note here] under the upper-casing service is
    written as [\item A NOTE HERE]; an item line with an opening
    delimiter does not start a block, and an item line inside a block is
    translated. *)
Theorem tex_item_line_rule (i : nat) (in_code_block : bool)
  (line : string) (rest : list string) (n : nat) :
  Tex.item_pattern line = Some n ->
  Tex.segment i in_code_block (line :: rest)
    = ((if truthy (strip (drop n line)) then [(i, drop n line)] else [])
       ++ Tex.segment (S i) in_code_block rest)%list
  /\ (forall translated_text,
        Tex.rebuilt line translated_text
        = take n line +:+ lstrip translated_text)
  /\ Tex.process_file (fun _ => Scenario.uppercase) ("\item A note here" +:+ LF)
     = Sent ("\item A NOTE HERE" +:+ LF) ["A note here"]
  /\ value (Tex.process_file (fun _ => Scenario.uppercase)
              ("\item see \{" +:+ LF +:+ "plain" +:+ LF))
     = "\item SEE \{" +:+ LF +:+ "PLAIN" +:+ LF
  /\ value (Tex.process_file (fun _ => Scenario.uppercase)
              ("\{" +:+ LF +:+ "inside" +:+ LF +:+ "\item note" +:+ LF))
     = "\{" +:+ LF +:+ "inside" +:+ LF +:+ "\item NOTE" +:+ LF.
Proof.
  intros Hitem. split; [|split].
  - simpl. rewrite Hitem. by destruct (truthy (strip (drop n line))).
  - intros translated_text. unfold Tex.rebuilt. by rewrite Hitem.
  - repeat split; vm_compute; reflexivity.
Qed.

Lemma tex_item_line_rule_witness :
  Tex.segment 0 true ["\item A note here" +:+ LF; "\{"]
    = ([(0, "A note here" +:+ LF)] ++ Tex.segment 1 true ["\{"])%list
  /\ Tex.process_file (fun _ => Scenario.uppercase) ("\item A note here" +:+ LF)
     = Sent ("\item A NOTE HERE" +:+ LF) ["A note here"].
Proof.
  pose proof (tex_item_line_rule 0 true ("\item A note here" +:+ LF) ["\{"] 6
                eq_refl) as [H1 [_ [H2 _]]].
  split; [exact H1 | exact H2].
Defined.

(** C1, where the code departs from it.  A special tag holds the comment
    lines [// one] and [// two].  When both calls succeed the lines are
    translated in place.  When the call for [one] fails, the translation
    of [two] lands on the line of [one], and the line of [two] stays
    untranslated. *)
Theorem html_failed_comment_shifts_translations :
  value (Html.process_special Scenario.uppercase ("// one" +:+ LF +:+ "// two"))
    = "// ONE" +:+ LF +:+ "// TWO"
  /\ value (Html.process_special (Scenario.uppercase_but "one")
              ("// one" +:+ LF +:+ "// two"))
    = "// TWO" +:+ LF +:+ "// two"
  /\ value (Html.process_file (Scenario.uppercase_but "one")
              [Html.Element "body" []
                 [Html.Element "pre" [] [Html.Text ("// one" +:+ LF +:+ "// two")]]])
    = [Html.Element "body" []
         [Html.Element "pre" [] [Html.Text ("// TWO" +:+ LF +:+ "// two")]]].
Proof. repeat split; vm_compute; reflexivity. Qed.

End Scenarios.

(** ** Scanning and substitution *)

Section Scanning.
Import PyStr.

Lemma render_scan_id (m : string -> option nat) (s : string) (skip k : nat) :
  Re.render (fun _ x => x) k (Re.scan m skip s) = drop skip s.
Proof.
  revert skip k; induction s as [|c s IH]; intros skip k; simpl.
  - by destruct skip.
  - destruct skip as [|skip]; [|apply IH].
    destruct (m (String c s)) as [[|n]|] eqn:E; simpl.
    + by rewrite IH.
    + rewrite IH. f_equal. apply take_drop.
    + by rewrite IH.
Qed.

(** Replacing every match by itself gives the subject back. *)
Lemma sub_id (m : string -> option nat) (s : string) :
  Re.sub m (fun x => x) s = s.
Proof. apply (render_scan_id m s 0 0). Qed.

Lemma hits_elem (ps : list Re.piece) (x : string) :
  x ∈ Re.hits ps <-> Re.Hit x ∈ ps.
Proof.
  induction ps as [|[c|y] ps IH]; simpl.
  - by rewrite !elem_of_nil.
  - rewrite elem_of_cons, IH. split; [by right | by intros [?|?]].
  - rewrite !elem_of_cons, IH.
    split; (intros [H|H]; [left; congruence | by right]).
Qed.

(** The output depends on the replacement of the matched texts only. *)
Lemma render_ext (r r' : nat -> string -> string) (ps : list Re.piece) :
  (forall k k' x, x ∈ Re.hits ps -> r k x = r' k' x) ->
  forall k k', Re.render r k ps = Re.render r' k' ps.
Proof.
  induction ps as [|[c|y] ps IH]; intros H k k'; simpl; [done| |].
  - f_equal. apply IH. intros. by apply H.
  - rewrite (H k k' y) by (simpl; left).
    f_equal. apply IH. intros. apply H. simpl. by right.
Qed.

Lemma sub_ext (m : string -> option nat) (r r' : string -> string)
  (s : string) :
  (forall x, x ∈ Re.finditer m s -> r x = r' x) ->
  Re.sub m r s = Re.sub m r' s.
Proof. intros H. apply render_ext. intros _ _ x Hx. by apply H. Qed.

End Scanning.

(** ** Dictionaries built by repeated assignment *)

Section Dictionaries.
Context {V : Type}.
Implicit Types (d : gmap string V) (l : list (string * V)).

Import Store.

Lemma foldl_assign_absent d l (k : string) :
  (forall j v, l !! j <> Some (k, v)) ->
  foldl assign d l !! k = d !! k.
Proof.
  revert d; induction l as [|[k0 v0] l IH]; intros d H; simpl; [done|].
  rewrite IH.
  - unfold assign; simpl. apply lookup_insert_ne.
    intros ->. by apply (H 0 v0).
  - intros j v. apply (H (S j) v).
Qed.

(** The last assignment to a key decides its value. *)
Lemma foldl_assign_last d l (k : string) (j : nat) (v : V) :
  l !! j = Some (k, v) ->
  (forall j' v', j < j' -> l !! j' <> Some (k, v')) ->
  foldl assign d l !! k = Some v.
Proof.
  revert d j; induction l as [|[k0 v0] l IH]; intros d j Hj Hlast; [done|].
  destruct j as [|j]; simpl in *.
  - injection Hj as -> ->.
    rewrite foldl_assign_absent.
    + unfold assign; simpl. apply lookup_insert_eq.
    + intros j' v'. apply (Hlast (S j') v'). lia.
  - apply (IH _ j Hj). intros j' v' Hlt. apply (Hlast (S j') v'). lia.
Qed.

End Dictionaries.

Lemma last_occurrence {A : Type} `{EqDecision A} (l : list A) (x : A) :
  x ∈ l ->
  exists j, l !! j = Some x /\ forall j', j < j' -> l !! j' <> Some x.
Proof.
  induction l as [|a l IH]; intros Hin; [by apply elem_of_nil in Hin|].
  destruct (decide (x ∈ l)) as [Hl|Hl].
  - destruct (IH Hl) as (j & Hj & Hlast). exists (S j). split; [done|].
    intros [|j'] Hlt; [lia|]. simpl. apply Hlast. lia.
  - apply elem_of_cons in Hin as [->|Hin]; [|done].
    exists 0. split; [done|].
    intros [|j'] Hlt; [lia|]. simpl. intros Hx.
    apply Hl. by eapply list_elem_of_lookup_2.
Qed.

(** ** The C-family driver: one replacement per comment text *)

Section CppReplacement.
Import PyStr.

Lemma cpp_zip_lookup (client : nat -> string -> option string)
  (comments : list string) (j : nat) (c v : string) :
  zip comments (value <$> Cpp.tasks_of client comments) !! j = Some (c, v)
  <-> comments !! j = Some c
      /\ v = value (Cpp.translate_with_semaphore (client j) c).
Proof.
  unfold Cpp.tasks_of.
  rewrite lookup_zip_with, list_lookup_fmap, list_lookup_imap.
  destruct (comments !! j) as [c'|]; simpl;
    [|split; [done | by intros [? _]]].
  split; [intros [= -> ->]; done | intros [[= ->] ->]; done].
Qed.

(** C10.  In the C-family driver the text written is the text read with
    every comment replaced by a function of the text of the comment
    alone, so two occurrences of one comment text are replaced alike.
    The function is the dictionary built from the comments and their
    results: the replacement of a comment text is the result of the
    task of its last occurrence. *)
Theorem cpp_equal_comments_equal_replacements
  (client : nat -> string -> option string) (content : string) :
  exists replacement : string -> string,
    value (Cpp.process_file client content)
      = Re.sub Cpp.comment_pattern replacement content
    /\ forall j c,
        Re.finditer Cpp.comment_pattern content !! j = Some c ->
        exists last,
          j <= last
          /\ Re.finditer Cpp.comment_pattern content !! last = Some c
          /\ (forall j', last < j' ->
                Re.finditer Cpp.comment_pattern content !! j' <> Some c)
          /\ replacement c
             = value (Cpp.translate_with_semaphore (client last) c).
Proof.
  unfold Cpp.process_file.
  destruct (Re.finditer Cpp.comment_pattern content) as [|c0 cs] eqn:E.
  - exists (fun x => x). split; [by rewrite sub_id | done].
  - set (comments := c0 :: cs) in *.
    set (vals := value <$> Cpp.tasks_of client comments).
    exists (Cpp.replace_comment (Cpp.dict_of_zip comments vals)).
    split; [done|].
    intros j c Hj.
    destruct (last_occurrence comments c) as (last & Hlast & Hafter);
      [by eapply list_elem_of_lookup_2|].
    exists last. repeat split; try done.
    + destruct (decide (j <= last)) as [|Hn]; [done|].
      exfalso. apply (Hafter j); [lia | done].
    + unfold Cpp.replace_comment, Cpp.dict_of_zip.
      erewrite (foldl_assign_last ∅ (zip comments vals) c last); [done| |].
      * apply cpp_zip_lookup. eauto.
      * intros j' v' Hlt Hz. apply cpp_zip_lookup in Hz as [Hz _].
        by apply (Hafter j').
Qed.

End CppReplacement.

(** ** The HTML driver: excluded elements *)

Section HtmlExcluded.
Import PyStr Html HtmlView.

(** C3, as stated, fails.  The element [b] is not excluded and its text
    is translated when the walk reaches it, but inside the excluded
    element [a] the walk never reaches it: nothing is handed to the
    service and the tree stays as it is. *)
Lemma html_excluded_element_blocks_descendants :
  let inner := Element "b" [] [Text "bold"] in
  let outer := Element "a" [] [Text "link"; inner] in
  ("a" ∈ EXCLUDE_TAGS) /\ ("a" ∉ SPECIAL_HANDLING_TAGS)
  /\ skipped "b" = false
  /\ translate_element Scenario.uppercase "body" inner
     = Sent (Element "b" [] [Text "BOLD"]) ["bold"]
  /\ translate_element Scenario.uppercase "body" outer = Sent outer []
  /\ value (process_file Scenario.uppercase [Element "body" [] [outer; inner]])
     = [Element "body" [] [outer; Element "b" [] [Text "BOLD"]]].
Proof.
  cbv zeta. split; [|split]; [by_decide | by_decide |].
  repeat split; vm_compute; reflexivity.
Qed.

Lemma html_for_each_lookup (visit : node -> Dispatch node) (l : list node)
  (i : nat) :
  value (for_each visit l) !! i = (fun c => value (visit c)) <$> l !! i.
Proof.
  revert i; induction l as [|c l IH]; intros i; [done|].
  change (value (for_each visit (c :: l)))
    with (value (visit c) :: value (for_each visit l)).
  destruct i as [|i]; [done|]. apply IH.
Qed.

(** The special-handling step changes special tags only. *)
Lemma html_no_special_list (client : string -> option string)
  (l : list node) :
  Forall (fun c => find_all_special c = [] -> with_special_texts client c = c)
    l ->
  mjoin (find_all_special <$> l) = [] ->
  with_special_texts client <$> l = l.
Proof.
  induction 1 as [|c l Hc _ IH]; [done|].
  rewrite !fmap_cons.
  change (mjoin (find_all_special c :: (find_all_special <$> l)))
    with (find_all_special c ++ mjoin (find_all_special <$> l))%list.
  intros Hnil. apply app_eq_nil in Hnil as [Hc' Hl].
  by rewrite (Hc Hc'), (IH Hl).
Qed.

Lemma html_no_special_unchanged (client : string -> option string)
  (n : node) :
  find_all_special n = [] -> with_special_texts client n = n.
Proof.
  induction n as [s | cls s | name attrs children IH] using node_induction;
    [done|done|].
  cbn [find_all_special with_special_texts].
  destruct (bool_decide (name ∈ SPECIAL_HANDLING_TAGS)); [done|].
  intros Hnil. f_equal. by apply html_no_special_list.
Qed.

(** The walk leaves an excluded element, at whatever depth below the
    node at which it starts, at its place and with its subtree. *)
Lemma html_walk_keeps_excluded (client : string -> option string)
  (excluded : node) (path : list nat) :
  (forall parent_name,
     translate_element client parent_name excluded = Sent excluded []) ->
  forall n parent_name,
    subtree path n = Some excluded ->
    subtree path (value (translate_element client parent_name n))
    = Some excluded.
Proof.
  intros Hexcluded.
  induction path as [|i path IH]; intros n parent_name.
  - intros [= ->]. by rewrite Hexcluded.
  - destruct n as [s | cls s | name attrs children]; [done|done|].
    cbn [subtree translate_element].
    destruct (skipped name); [done|].
    change (value (children' ← for_each (translate_element client name)
                                  children;
                   mret (Element name attrs children')))
      with (Element name attrs
              (value (for_each (translate_element client name) children))).
    cbn [subtree]. rewrite html_for_each_lookup.
    destruct (children !! i) as [c|]; [|done].
    apply IH.
Qed.

(** C3, amended.  For every element whose tag name is in the exclusion
    set the walk returns at once: it translates none of the strings of
    the element and does not recurse into its children, so the walk
    hands nothing of the subtree to the service and leaves the element,
    at whatever depth below the node at which the walk starts, at its
    place with its whole subtree, nested elements that are not excluded
    included.  A string whose parent is excluded is left alone as well.
    The exception is the special-handling step, which runs over the
    whole tree before the walk and does not look at the exclusion set:
    it goes into an excluded element, and a special tag inside it is
    replaced by one text node in which the comment lines are rewritten
    with the answers of the service; an excluded element without a
    special tag inside is left as it is by that step too, and nothing
    of it is handed to the service.  The two documents at the end show
    the exception: a special tag inside an excluded element, and an
    excluded element inside a special tag. *)
Theorem html_excluded_element_untouched
  (client : string -> option string) (parent_name name : string)
  (attrs : list (string * string)) (children : list node) :
  name ∈ EXCLUDE_TAGS ->
  translate_element client parent_name (Element name attrs children)
    = Sent (Element name attrs children) []
  /\ (forall s, translate_element client name (Text s) = Sent (Text s) [])
  /\ (forall cls s,
       translate_element client name (Str cls s) = Sent (Str cls s) [])
  /\ (forall path n start_parent,
       subtree path n = Some (Element name attrs children) ->
       subtree path (value (translate_element client start_parent n))
       = Some (Element name attrs children))
  /\ with_special_texts client (Element name attrs children)
     = Element name attrs (with_special_texts client <$> children)
  /\ translate_element client parent_name
       (with_special_texts client (Element name attrs children))
     = Sent (with_special_texts client (Element name attrs children)) []
  /\ (find_all_special (Element name attrs children) = [] ->
      special_step client [Element name attrs children]
      = Sent [Element name attrs children] [])
  /\ process_file Scenario.uppercase
       [Element "body" []
          [Element "code" [] [Element "pre" [] [Text "// hi"]]]]
     = Sent [Element "body" []
               [Element "code" [] [Element "pre" [] [Text "// HI"]]]]
         ["hi"]
  /\ process_file Scenario.uppercase
       [Element "body" []
          [Element "pre" [] [Element "code" [] [Text "// hi"]]]]
     = Sent [Element "body" [] [Element "pre" [] [Text "// HI"]]] ["hi"].
Proof.
  intros Hin.
  assert (Hs : skipped name = true).
  { unfold skipped. by rewrite bool_decide_eq_true_2. }
  assert (Hpre : bool_decide (name ∈ SPECIAL_HANDLING_TAGS) = false).
  { apply bool_decide_eq_false_2. intros Hsp.
    apply list_elem_of_singleton in Hsp. subst name.
    revert Hin. by_decide. }
  assert (Hwalk : forall kids parent,
            translate_element client parent (Element name attrs kids)
            = Sent (Element name attrs kids) []).
  { intros kids parent. simpl. by rewrite Hs. }
  split; [apply Hwalk|].
  split; [intros s; simpl; rewrite Hs; simpl; by destruct (truthy (strip s))|].
  split; [intros cls s; simpl; rewrite Hs; simpl;
          by destruct (truthy (strip s))|].
  split; [intros path n start_parent;
          apply html_walk_keeps_excluded; intros; apply Hwalk|].
  assert (Hstep : with_special_texts client (Element name attrs children)
                  = Element name attrs (with_special_texts client <$> children)).
  { cbn [with_special_texts]. by rewrite Hpre. }
  split; [exact Hstep|].
  split; [rewrite Hstep; apply Hwalk|].
  split; [|split; vm_compute; reflexivity].
  intros Hnil. unfold special_step.
  cbn [fmap list_fmap mjoin list_join].
  rewrite app_nil_r, Hnil, Hstep. cbn [fmap list_fmap mjoin list_join].
  cbn [find_all_special] in Hnil. rewrite Hpre in Hnil.
  rewrite html_no_special_list; [done| |done].
  apply Forall_forall. intros c _. apply html_no_special_unchanged.
Qed.

Lemma html_excluded_element_untouched_witness :
  translate_element Scenario.uppercase "body"
    (Element "code" [("class", "x")] [Element "span" [] [Text "text"]])
  = Sent (Element "code" [("class", "x")] [Element "span" [] [Text "text"]]) []
  /\ special_step Scenario.uppercase
       [Element "code" [("class", "x")] [Element "span" [] [Text "text"]]]
     = Sent [Element "code" [("class", "x")]
               [Element "span" [] [Text "text"]]] [].
Proof.
  destruct (html_excluded_element_untouched Scenario.uppercase "body" "code"
              [("class", "x")] [Element "span" [] [Text "text"]])
    as (Hwalk & _ & _ & _ & _ & _ & Hstep & _); [by_decide|].
  split; [exact Hwalk|]. apply Hstep. reflexivity.
Defined.

End HtmlExcluded.

(** ** Lists updated by index *)

Section Puts.
Context {A B : Type} (key : B -> nat) (val : B -> A).
Implicit Types (ls : list A) (items : list B).


Lemma foldl_put_other items ls (i : nat) :
  i ∉ key <$> items ->
  foldl (Store.put key val) ls items !! i = ls !! i.
Proof.
  revert ls; induction items as [|p items IH]; intros ls Hi; simpl; [done|].
  rewrite fmap_cons, not_elem_of_cons in Hi. destruct Hi as [Hne Hi].
  rewrite IH by done. unfold Store.put. by rewrite list_lookup_insert_ne.
Qed.

(** With pairwise distinct indices every update is still there at the
    end. *)
Lemma foldl_put_at items ls (j : nat) (p : B) :
  NoDup (key <$> items) ->
  items !! j = Some p ->
  key p < length ls ->
  foldl (Store.put key val) ls items !! key p = Some (val p).
Proof.
  revert ls j; induction items as [|q items IH]; intros ls j Hnd Hj Hlt;
    [done|].
  rewrite fmap_cons in Hnd. apply NoDup_cons in Hnd as [Hq Hnd].
  destruct j as [|j]; simpl in *.
  - injection Hj as ->.
    rewrite foldl_put_other by done.
    unfold Store.put. by rewrite list_lookup_insert_eq.
  - apply (IH _ j); [done | done |].
    unfold Store.put. by rewrite length_insert.
Qed.

End Puts.

(** ** [gather] and the completion order *)

Section Gather.
Context {A : Type}.


Lemma gather_value_length (tasks : list (Dispatch A)) :
  length (value (Async.gather tasks)) = length tasks.
Proof. simpl. apply length_fmap. Qed.

End Gather.

(** ** The Markdown driver: segments and their lines *)

Section MdSegments.
Import PyStr.

Lemma md_segment_bounds (lines : list string) (i : nat) (b : bool)
  (inf : Md.info) :
  inf ∈ Md.segment i b lines ->
  i <= Md.index inf < i + length lines
  /\ lines !! (Md.index inf - i) = Some (Md.original_line inf).
Proof.
  revert i b; induction lines as [|line rest IH]; intros i b Hin; simpl in *.
  - by apply elem_of_nil in Hin.
  - assert (Hrest : forall b', inf ∈ Md.segment (S i) b' rest ->
              i <= Md.index inf < i + S (length rest)
              /\ (line :: rest) !! (Md.index inf - i)
                 = Some (Md.original_line inf)).
    { intros b' H. destruct (IH _ _ H) as [Hb Hl]. split; [lia|].
      replace (Md.index inf - i) with (S (Md.index inf - S i)) by lia.
      done. }
    destruct (Md.is_fence line); [by eapply Hrest|].
    destruct b; [by eapply Hrest|].
    destruct (negb (truthy (Md.rstrip_eol line))); [by eapply Hrest|].
    apply elem_of_cons in Hin as [->|Hin]; [|by eapply Hrest].
    simpl. rewrite Nat.sub_diag. split; [lia | done].
Qed.

Lemma md_segment_nodup (lines : list string) (i : nat) (b : bool) :
  NoDup (Md.index <$> Md.segment i b lines).
Proof.
  revert i b; induction lines as [|line rest IH]; intros i b; simpl.
  - apply NoDup_nil_2.
  - destruct (Md.is_fence line); [apply IH|].
    destruct b; [apply IH|].
    destruct (negb (truthy (Md.rstrip_eol line))); [apply IH|].
    rewrite fmap_cons. apply NoDup_cons. split; [|apply IH].
    simpl. intros Hin. apply list_elem_of_fmap in Hin as (inf & Heq & Hin).
    apply md_segment_bounds in Hin. lia.
Qed.

Lemma md_fences_before_cons (line : string) (rest : list string) (k : nat) :
  Md.fences_before (line :: rest) (S k)
  = (if Md.is_fence line then 1 else 0) + Md.fences_before rest k.
Proof.
  unfold Md.fences_before. simpl. by destruct (Md.is_fence line).
Qed.

(** A line that is scanned while the block flag is set yields no
    segment.  The flag at line [k] is the flag at the start, flipped
    once for every fence line before [k]. *)
Lemma md_segment_skips_block (lines : list string) (i k : nat) (b : bool)
  (inf : Md.info) :
  xorb b (Md.inside_code_block lines k) = true ->
  inf ∈ Md.segment i b lines ->
  Md.index inf <> i + k.
Proof.
  revert i k b; induction lines as [|line rest IH]; intros i k b Hb Hin.
  - by apply elem_of_nil in Hin.
  - destruct k as [|k].
    + unfold Md.inside_code_block, Md.fences_before in Hb. simpl in Hb.
      rewrite xorb_false_r in Hb. subst b. simpl in Hin.
      destruct (Md.is_fence line);
        apply md_segment_bounds in Hin; lia.
    + unfold Md.inside_code_block in *.
      rewrite md_fences_before_cons in Hb. simpl in Hin.
      replace (i + S k) with (S i + k) by lia.
      destruct (Md.is_fence line) eqn:Ef.
      * apply (IH (S i) k (negb b)); [|done].
        rewrite Nat.odd_succ, <- Nat.negb_odd in Hb.
        by destruct b, (Nat.odd (Md.fences_before rest k)).
      * simpl in Hb.
        assert (Hrest : inf ∈ Md.segment (S i) b rest ->
                        Md.index inf <> S i + k)
          by (by apply IH).
        destruct b; [by apply Hrest|].
        destruct (negb (truthy (Md.rstrip_eol line))); [by apply Hrest|].
        apply elem_of_cons in Hin as [->|Hin]; [simpl; lia | by apply Hrest].
Qed.

Lemma md_write_back_puts (lines : list string) (infos : list Md.info)
  (results : list string) :
  Md.write_back lines infos results
  = foldl (Store.put (fun p : Md.info * string => Md.index p.1)
             (fun p => p.2 +:+ Md.original_ending p.1))
      lines (zip infos results).
Proof. reflexivity. Qed.

Lemma md_tasks_length (client : nat -> string -> option string)
  (infos : list Md.info) :
  length (value <$> Md.tasks_of client infos) = length infos.
Proof. unfold Md.tasks_of. by rewrite length_fmap, length_imap. Qed.

Lemma md_zip_keys (infos : list Md.info) (results : list string) :
  length results = length infos ->
  (fun p : Md.info * string => Md.index p.1) <$> zip infos results
  = Md.index <$> infos.
Proof.
  intros Hlen. rewrite <- (fst_zip infos results) at 2 by lia.
  by rewrite <- list_fmap_compose.
Qed.

(** The lines written, whether or not there is anything to translate. *)
Lemma md_process_lines_value (client : nat -> string -> option string)
  (lines : list string) :
  value (Md.process_lines client lines)
  = Md.write_back lines (Md.segment 0 false lines)
      (value <$> Md.tasks_of client (Md.segment 0 false lines)).
Proof.
  unfold Md.process_lines.
  by destruct (Md.segment 0 false lines).
Qed.

Lemma md_process_lines_sent (client : nat -> string -> option string)
  (lines : list string) :
  sent (Md.process_lines client lines)
  = mjoin (sent <$> Md.tasks_of client (Md.segment 0 false lines)).
Proof.
  unfold Md.process_lines.
  destruct (Md.segment 0 false lines); [done|].
  simpl. by rewrite app_nil_r.
Qed.

Lemma md_line_unchanged (client : nat -> string -> option string)
  (lines : list string) (i : nat) :
  i ∉ Md.index <$> Md.segment 0 false lines ->
  value (Md.process_lines client lines) !! i = lines !! i.
Proof.
  intros Hi. rewrite md_process_lines_value, md_write_back_puts.
  apply foldl_put_other.
  by rewrite md_zip_keys by apply md_tasks_length.
Qed.

Lemma md_line_replaced (client : nat -> string -> option string)
  (lines : list string) (j : nat) (inf : Md.info) :
  Md.segment 0 false lines !! j = Some inf ->
  value (Md.process_lines client lines) !! Md.index inf
  = Some (value (Md.translate_line (client j)
                   (Md.rstrip_eol (Md.original_line inf)))
          +:+ Md.original_ending inf).
Proof.
  intros Hj. rewrite md_process_lines_value, md_write_back_puts.
  set (infos := Md.segment 0 false lines) in *.
  set (results := value <$> Md.tasks_of client infos).
  set (r := value (Md.translate_line (client j)
                     (Md.rstrip_eol (Md.original_line inf)))).
  assert (Hz : zip infos results !! j = Some (inf, r)).
  { rewrite lookup_zip_with. rewrite Hj. simpl.
    unfold results, Md.tasks_of.
    rewrite list_lookup_fmap, list_lookup_imap, Hj. done. }
  apply (foldl_put_at (fun p : Md.info * string => Md.index p.1)
           (fun p => p.2 +:+ Md.original_ending p.1) _ _ j (inf, r)).
  - rewrite md_zip_keys by apply md_tasks_length.
    apply md_segment_nodup.
  - done.
  - simpl. apply list_elem_of_lookup_2 in Hj.
    apply md_segment_bounds in Hj. lia.
Qed.

(** C8.  In the Markdown driver a line that lies behind an odd number
    of fence lines, that is, inside a code block, is protected: the scan
    makes no segment of it, so no task is started for it and nothing of
    it is handed to the service (the texts sent are those of the tasks
    of the segments), and the line is written as it was read. *)
Theorem md_code_block_lines_protected
  (client : nat -> string -> option string) (lines : list string) (i : nat) :
  Md.inside_code_block lines i = true ->
  (forall inf, inf ∈ Md.segment 0 false lines -> Md.index inf <> i)
  /\ sent (Md.process_lines client lines)
     = mjoin (sent <$> Md.tasks_of client (Md.segment 0 false lines))
  /\ value (Md.process_lines client lines) !! i = lines !! i.
Proof.
  intros Hin.
  assert (Hno : forall inf, inf ∈ Md.segment 0 false lines -> Md.index inf <> i).
  { intros inf H. apply (md_segment_skips_block lines 0 i false inf); [|done].
    by rewrite Hin. }
  split; [done|]. split; [apply md_process_lines_sent|].
  apply md_line_unchanged.
  intros H. apply list_elem_of_fmap in H as (inf & -> & H). by apply (Hno inf).
Qed.

End MdSegments.

(** ** The TeX driver: segments and their lines *)

Section TexSegments.
Import PyStr.

Lemma tex_segment_bounds (lines : list string) (i : nat) (b : bool)
  (p : nat * string) :
  p ∈ Tex.segment i b lines -> i <= p.1 < i + length lines.
Proof.
  revert i b; induction lines as [|line rest IH]; intros i b Hin; simpl in *.
  - by apply elem_of_nil in Hin.
  - assert (Hrest : forall b', p ∈ Tex.segment (S i) b' rest ->
              i <= p.1 < i + S (length rest)).
    { intros b' H. apply IH in H. lia. }
    destruct (Tex.item_pattern line).
    + destruct (truthy (strip (drop n line))); [|by eapply Hrest].
      apply elem_of_cons in Hin as [->|Hin]; [simpl; lia | by eapply Hrest].
    + destruct (Tex.begin_pattern line); [by eapply Hrest|].
      destruct (Tex.end_pattern line); [by eapply Hrest|].
      destruct (b || mem "\" line); [by eapply Hrest|].
      destruct (negb (truthy (strip line))); [by eapply Hrest|].
      apply elem_of_cons in Hin as [->|Hin]; [simpl; lia | by eapply Hrest].
Qed.

Lemma tex_segment_nodup (lines : list string) (i : nat) (b : bool) :
  NoDup (Tex.segment i b lines).*1.
Proof.
  assert (Hfresh : forall b' rest, i ∉ (Tex.segment (S i) b' rest).*1).
  { intros b' rest Hin. apply list_elem_of_fmap in Hin as (p & Heq & Hin).
    apply tex_segment_bounds in Hin. lia. }
  revert i b Hfresh; induction lines as [|line rest IH]; intros i b Hfresh;
    simpl.
  - apply NoDup_nil_2.
  - assert (Hrest : forall b', NoDup (Tex.segment (S i) b' rest).*1).
    { intros b'. apply IH. intros b'' rest' Hin.
      apply list_elem_of_fmap in Hin as (p & Heq & Hin).
      apply tex_segment_bounds in Hin. lia. }
    destruct (Tex.item_pattern line).
    + destruct (truthy (strip (drop n line))); [|apply Hrest].
      rewrite fmap_cons. apply NoDup_cons. split; [apply Hfresh | apply Hrest].
    + destruct (Tex.begin_pattern line); [apply Hrest|].
      destruct (Tex.end_pattern line); [apply Hrest|].
      destruct (b || mem "\" line); [apply Hrest|].
      destruct (negb (truthy (strip line))); [apply Hrest|].
      rewrite fmap_cons. apply NoDup_cons. split; [apply Hfresh | apply Hrest].
Qed.

(** The loop that fills [translated_lines] as a sequence of updates by
    index. *)
Lemma tex_put_back_puts (lines : list string) (items : list (nat * string))
  (translated_lines : list string) :
  length translated_lines = length lines ->
  foldl (Tex.put_back lines) translated_lines items
  = foldl (Store.put fst
             (fun p : nat * string =>
                Tex.rebuilt (default "" (lines !! p.1)) p.2))
      translated_lines items.
Proof.
  revert translated_lines; induction items as [|p items IH];
    intros tl Hlen; simpl; [done|].
  assert (Hstep : Tex.put_back lines tl p
                  = Store.put fst
                      (fun p : nat * string =>
                         Tex.rebuilt (default "" (lines !! p.1)) p.2) tl p).
  { unfold Tex.put_back, Store.put.
    destruct (lines !! p.1) eqn:E; simpl; [done|].
    apply lookup_ge_None in E. symmetry. apply list_insert_ge. lia. }
  rewrite Hstep. apply IH. unfold Store.put. by rewrite length_insert.
Qed.

Lemma tex_tasks_length (client : nat -> string -> option string)
  (found : list (nat * string)) :
  length (value <$> Tex.tasks_of client found.*2) = length found.*1.
Proof. unfold Tex.tasks_of. by rewrite !length_fmap, length_imap, length_fmap. Qed.

Lemma tex_process_lines_value (client : nat -> string -> option string)
  (lines : list string) :
  value (Tex.process_lines client lines)
  = Tex.write_back lines (Tex.segment 0 false lines).*1
      (value <$> Tex.tasks_of client (Tex.segment 0 false lines).*2).
Proof.
  unfold Tex.process_lines.
  by destruct (Tex.segment 0 false lines).
Qed.

Lemma tex_line_unchanged (client : nat -> string -> option string)
  (lines : list string) (i : nat) :
  i ∉ (Tex.segment 0 false lines).*1 ->
  value (Tex.process_lines client lines) !! i = lines !! i.
Proof.
  intros Hi. rewrite tex_process_lines_value. unfold Tex.write_back.
  rewrite tex_put_back_puts by done.
  apply foldl_put_other.
  by rewrite fst_zip by (rewrite tex_tasks_length; lia).
Qed.

Lemma tex_line_replaced (client : nat -> string -> option string)
  (lines : list string) (j idx : nat) (text : string) :
  Tex.segment 0 false lines !! j = Some (idx, text) ->
  exists original_line,
    lines !! idx = Some original_line
    /\ value (Tex.process_lines client lines) !! idx
       = Some (Tex.rebuilt original_line
                 (value (Tex.translate_with_semaphore (client j) text))).
Proof.
  intros Hj.
  assert (Hidx : idx < length lines).
  { apply list_elem_of_lookup_2 in Hj. apply tex_segment_bounds in Hj.
    simpl in Hj. lia. }
  destruct (lookup_lt_is_Some_2 lines idx Hidx) as [original_line Hol].
  exists original_line. split; [done|].
  rewrite tex_process_lines_value. unfold Tex.write_back.
  rewrite tex_put_back_puts by done.
  set (found := Tex.segment 0 false lines) in *.
  set (r := value (Tex.translate_with_semaphore (client j) text)).
  assert (Hz : zip found.*1 (value <$> Tex.tasks_of client found.*2) !! j
               = Some (idx, r)).
  { rewrite lookup_zip_with. unfold Tex.tasks_of.
    rewrite !list_lookup_fmap, list_lookup_imap, list_lookup_fmap, Hj. done. }
  pose proof (foldl_put_at fst
                (fun p : nat * string =>
                   Tex.rebuilt (default "" (lines !! p.1)) p.2)
                (zip found.*1 (value <$> Tex.tasks_of client found.*2))
                lines j (idx, r)) as Hat.
  simpl in Hat. rewrite Hol in Hat. simpl in Hat. apply Hat; [|done|done].
  rewrite fst_zip by (rewrite tex_tasks_length; lia).
  apply tex_segment_nodup.
Qed.

End TexSegments.

(** ** Reassembly by segment index *)

Section Reassembly.
Import PyStr.








End Reassembly.

(** ** Runs that hand nothing to the service *)

Lemma sent_bind {A B : Type} (m : Dispatch A) (f : A -> Dispatch B) :
  sent (m ≫= f) = (sent m ++ sent (f (value m)))%list.
Proof. reflexivity. Qed.

Lemma value_bind {A B : Type} (m : Dispatch A) (f : A -> Dispatch B) :
  value (m ≫= f) = value (f (value m)).
Proof. reflexivity. Qed.

Ltac dispatch_simpl :=
  rewrite ?sent_bind, ?value_bind;
  unfold Async.gather;
  cbn [value sent mret Dispatch_ret].

Section Silent.
Import PyStr.

Lemma mjoin_nil_elem {A : Type} (ls : list (list A)) (l : list A) :
  mjoin ls = [] -> l ∈ ls -> l = [].
Proof.
  induction ls as [|x ls IH]; intros Hnil Hin; [by apply elem_of_nil in Hin|].
  simpl in Hnil. apply app_eq_nil in Hnil as [Hx Hls].
  apply elem_of_cons in Hin as [->|Hin]; [done | by apply IH].
Qed.

(** Tasks that send nothing and, when they send nothing, hand their text
    back. *)
Lemma silent_tasks_values (task : nat -> string -> Dispatch string)
  (texts : list string) :
  (forall j text, sent (task j text) = [] -> value (task j text) = text) ->
  mjoin (sent <$> imap task texts) = [] ->
  value <$> imap task texts = texts.
Proof.
  intros Htask Hnil. apply list_eq. intros j.
  rewrite list_lookup_fmap, list_lookup_imap.
  destruct (texts !! j) as [text|] eqn:E; simpl; [|done].
  f_equal. apply Htask.
  apply (mjoin_nil_elem _ _ Hnil).
  apply list_elem_of_fmap. exists (task j text). split; [done|].
  apply list_elem_of_lookup. exists j.
  by rewrite list_lookup_imap, E.
Qed.

Lemma cpp_silent_task (client : string -> option string) (text : string) :
  sent (Cpp.translate_with_semaphore client text) = [] ->
  value (Cpp.translate_with_semaphore client text) = text.
Proof.
  unfold Cpp.translate_with_semaphore.
  destruct (negb (has_alnum text)); [done|].
  destruct (negb (truthy (Cpp.clean text))); [done|].
  rewrite sent_bind. simpl. discriminate.
Qed.

Lemma md_silent_task (client : string -> option string) (line : string) :
  sent (Md.translate_line client line) = [] ->
  value (Md.translate_line client line) = line.
Proof.
  unfold Md.translate_line.
  destruct (negb (has_alnum line)); [done|].
  destruct (negb (has_alnum (Md.line_with_placeholders line))); [done|].
  rewrite sent_bind. simpl. discriminate.
Qed.

Lemma tex_silent_task (client : string -> option string) (text : string) :
  sent (Tex.translate_with_semaphore client text) = [] ->
  value (Tex.translate_with_semaphore client text) = text.
Proof.
  unfold Tex.translate_with_semaphore.
  destruct (negb (has_alnum text)); [done|].
  destruct (negb (truthy (strip text))); [done|].
  rewrite sent_bind. simpl. discriminate.
Qed.

(** A dictionary that maps every key to itself replaces nothing. *)
Lemma foldl_assign_same (d : gmap string string) (l : list string) :
  (forall k v, d !! k = Some v -> v = k) ->
  forall k v, foldl Store.assign d (zip l l) !! k = Some v -> v = k.
Proof.
  revert d; induction l as [|x l IH]; intros d Hd k v; simpl; [apply Hd|].
  apply IH. intros k' v'. unfold Store.assign; simpl.
  destruct (decide (x = k')) as [->|Hne].
  - rewrite lookup_insert_eq. congruence.
  - rewrite lookup_insert_ne by done. apply Hd.
Qed.

(** The C-family driver without a call of the service. *)
Lemma cpp_silent_file (client : nat -> string -> option string)
  (content : string) :
  sent (Cpp.process_file client content) = [] ->
  value (Cpp.process_file client content) = content.
Proof.
  unfold Cpp.process_file.
  destruct (Re.finditer Cpp.comment_pattern content) as [|c0 cs] eqn:E;
    [done|].
  set (comments := c0 :: cs) in *.
  dispatch_simpl. rewrite app_nil_r. intros Hnil.
  unfold Cpp.tasks_of in *.
  rewrite (silent_tasks_values
             (fun j comment => Cpp.translate_with_semaphore (client j) comment))
    by (intros; by apply cpp_silent_task || done).
  rewrite (sub_ext _ _ (fun x => x)); [apply sub_id|].
  intros x _. unfold Cpp.replace_comment, Cpp.dict_of_zip.
  destruct (foldl _ ∅ (zip comments comments) !! x) as [v|] eqn:Ev; [|done].
  simpl. apply (foldl_assign_same ∅ comments) in Ev; [done|].
  intros k v'. by rewrite lookup_empty.
Qed.

End Silent.

Section SilentLines.
Import PyStr.

Lemma sent_fmap {A B : Type} (f : A -> B) (m : Dispatch A) :
  sent (f <$> m) = sent m.
Proof. reflexivity. Qed.

Lemma value_fmap {A B : Type} (f : A -> B) (m : Dispatch A) :
  value (f <$> m) = f (value m).
Proof. reflexivity. Qed.

Lemma imap_silent_at {A : Type} (task : nat -> A -> Dispatch string)
  (items : list A) (j : nat) (x : A) :
  mjoin (sent <$> imap task items) = [] ->
  items !! j = Some x ->
  sent (task j x) = [].
Proof.
  intros Hnil Hj. apply (mjoin_nil_elem _ _ Hnil).
  apply list_elem_of_fmap. exists (task j x). split; [done|].
  apply list_elem_of_lookup. exists j. by rewrite list_lookup_imap, Hj.
Qed.

(** The Markdown driver without a call of the service. *)
Lemma md_silent_lines (client : nat -> string -> option string)
  (lines : list string) :
  sent (Md.process_lines client lines) = [] ->
  value (Md.process_lines client lines) = lines.
Proof.
  rewrite md_process_lines_sent. intros Hnil.
  apply list_eq. intros i.
  destruct (decide (i ∈ Md.index <$> Md.segment 0 false lines)) as [Hin|Hout];
    [|by apply md_line_unchanged].
  apply list_elem_of_fmap in Hin as (inf & -> & Hin).
  pose proof (md_segment_bounds _ _ _ _ Hin) as [_ Hline].
  rewrite Nat.sub_0_r in Hline.
  apply list_elem_of_lookup in Hin as [j Hj].
  rewrite (md_line_replaced client lines j inf Hj), Hline. f_equal.
  rewrite md_silent_task.
  - apply rstrip_of_rest.
  - by apply (imap_silent_at
                (fun j inf => Md.translate_line (client j)
                                (Md.rstrip_eol (Md.original_line inf)))
                _ j inf Hnil).
Qed.

Lemma md_silent_file (client : nat -> string -> option string)
  (content : string) :
  sent (Md.process_file client content) = [] ->
  value (Md.process_file client content) = content.
Proof.
  unfold Md.process_file. rewrite sent_fmap, value_fmap. intros Hnil.
  rewrite md_silent_lines by done. apply concat_readlines.
Qed.

(** Behind the match of a spaced pattern the text does not start with
    white space. *)
Lemma spaced_rest (lit s : string) (n : nat) :
  Re.spaced lit s = Some n -> lstrip (drop n s) = drop n s.
Proof.
  unfold Re.spaced.
  destruct (startswith lit (lstrip s)); [|done].
  intros [= <-].
  rewrite !drop_add, !lstrip_suffix. apply lstrip_idemp.
Qed.

Lemma tex_segment_text (lines : list string) (i : nat) (b : bool)
  (p : nat * string) :
  p ∈ Tex.segment i b lines ->
  exists original_line,
    lines !! (p.1 - i) = Some original_line
    /\ Tex.rebuilt original_line p.2 = original_line.
Proof.
  revert i b; induction lines as [|line rest IH]; intros i b Hin; simpl in *.
  - by apply elem_of_nil in Hin.
  - assert (Hrest : forall b', p ∈ Tex.segment (S i) b' rest ->
              exists original_line,
                (line :: rest) !! (p.1 - i) = Some original_line
                /\ Tex.rebuilt original_line p.2 = original_line).
    { intros b' H. pose proof (tex_segment_bounds _ _ _ _ H) as Hb.
      destruct (IH _ _ H) as (ol & Hl & Hr). exists ol. split; [|done].
      replace (p.1 - i) with (S (p.1 - S i)) by lia. done. }
    destruct (Tex.item_pattern line) as [n|] eqn:Ei.
    + destruct (truthy (strip (drop n line))); [|by eapply Hrest].
      apply elem_of_cons in Hin as [->|Hin]; [|by eapply Hrest].
      exists line. simpl. rewrite Nat.sub_diag. split; [done|].
      unfold Tex.rebuilt. rewrite Ei.
      rewrite (spaced_rest _ _ _ Ei). apply take_drop.
    + destruct (Tex.begin_pattern line); [by eapply Hrest|].
      destruct (Tex.end_pattern line); [by eapply Hrest|].
      destruct (b || mem "\" line); [by eapply Hrest|].
      destruct (negb (truthy (strip line))); [by eapply Hrest|].
      apply elem_of_cons in Hin as [->|Hin]; [|by eapply Hrest].
      exists line. simpl. rewrite Nat.sub_diag. split; [done|].
      unfold Tex.rebuilt. by rewrite Ei.
Qed.

(** The TeX driver without a call of the service. *)
Lemma tex_silent_lines (client : nat -> string -> option string)
  (lines : list string) :
  sent (Tex.process_lines client lines) = [] ->
  value (Tex.process_lines client lines) = lines.
Proof.
  intros Hnil.
  assert (Htasks : mjoin (sent <$> Tex.tasks_of client
                                     (Tex.segment 0 false lines).*2) = []).
  { revert Hnil. unfold Tex.process_lines.
    destruct (Tex.segment 0 false lines); [done|].
    dispatch_simpl. by rewrite app_nil_r. }
  apply list_eq. intros i.
  destruct (decide (i ∈ (Tex.segment 0 false lines).*1)) as [Hin|Hout];
    [|by apply tex_line_unchanged].
  apply list_elem_of_fmap in Hin as ([idx text] & -> & Hin). simpl.
  destruct (tex_segment_text _ _ _ _ Hin) as (ol & Hline & Hsame).
  simpl in Hline, Hsame. rewrite Nat.sub_0_r in Hline.
  apply list_elem_of_lookup in Hin as [j Hj].
  destruct (tex_line_replaced client lines j idx text Hj)
    as (ol' & Hline' & Hout).
  rewrite Hout, Hline. f_equal.
  assert (ol' = ol) as -> by congruence.
  rewrite tex_silent_task; [done|].
  apply (imap_silent_at
           (fun j text => Tex.translate_with_semaphore (client j) text)
           _ j text Htasks).
  by rewrite list_lookup_fmap, Hj.
Qed.

Lemma tex_silent_file (client : nat -> string -> option string)
  (content : string) :
  sent (Tex.process_file client content) = [] ->
  value (Tex.process_file client content) = content.
Proof.
  unfold Tex.process_file. rewrite sent_fmap, value_fmap. intros Hnil.
  rewrite tex_silent_lines by done. apply concat_readlines.
Qed.

End SilentLines.

Section SilentHtml.
Import PyStr Html.

Lemma html_calls_sent (client : string -> option string) (l : list string) :
  mjoin (sent <$> (translate_with_semaphore client <$> l)) = l.
Proof.
  induction l as [|x l IH]; [done|].
  change (x :: mjoin (sent <$> (translate_with_semaphore client <$> l))
          = x :: l).
  by rewrite IH.
Qed.

(** A special tag without a call of the service keeps its text. *)
Lemma html_silent_special (client : string -> option string) (text : string) :
  sent (process_special client text) = [] ->
  value (process_special client text) = text.
Proof.
  unfold process_special.
  destruct ((collect 0 (split_nl text)).*1) as [|c0 cs] eqn:E;
    [intros _; apply join_split_nl|].
  unfold translate_text_list. dispatch_simpl.
  rewrite html_calls_sent, !app_nil_r. intros ->.
  simpl. apply join_split_nl.
Qed.

Lemma html_special_texts_flat (client : string -> option string) (n : node) :
  (forall tag, tag ∈ find_all_special n ->
               sent (process_special client (get_text tag)) = []) ->
  with_special_texts client n = with_flat_special n.
Proof.
  induction n as [s | cls s | name attrs children IH] using node_induction;
    intros Hsilent; [done|done|].
  simpl in *.
  destruct (bool_decide (name ∈ SPECIAL_HANDLING_TAGS)) eqn:Es.
  - rewrite html_silent_special; [done|].
    apply (Hsilent (Element name attrs children)). simpl. by left.
  - f_equal. apply Forall_fmap_ext_1.
    rewrite Forall_forall in IH. apply Forall_forall.
    intros c Hc. apply IH; [done|].
    intros tag Htag. apply Hsilent. simpl.
    apply list_elem_of_join. exists (find_all_special c). split; [done|].
    apply list_elem_of_fmap. by exists c.
Qed.

Lemma html_for_each_silent (visit : node -> Dispatch node) (l : list node) :
  Forall (fun c => sent (visit c) = [] -> value (visit c) = c) l ->
  sent (for_each visit l) = [] ->
  value (for_each visit l) = l.
Proof.
  induction 1 as [|c l Hc _ IH]; [done|].
  simpl. dispatch_simpl. rewrite app_nil_r.
  intros Hnil. apply app_eq_nil in Hnil as [H1 H2].
  by rewrite Hc, IH.
Qed.

(** The walk without a call of the service leaves the tree as it is. *)
Lemma html_walk_silent (client : string -> option string) (n : node) :
  forall parent_name,
    sent (translate_element client parent_name n) = [] ->
    value (translate_element client parent_name n) = n.
Proof.
  induction n as [s | cls s | name attrs children IH] using node_induction;
    intros parent_name; simpl.
  - destruct (truthy (strip s)); [|done].
    destruct (negb (skipped parent_name)); [|done].
    dispatch_simpl. discriminate.
  - destruct (truthy (strip s)); [|done].
    destruct (negb (skipped parent_name)); [|done].
    dispatch_simpl. discriminate.
  - destruct (skipped name); [done|].
    dispatch_simpl. rewrite app_nil_r. intros Hnil.
    rewrite html_for_each_silent; [done| |done].
    eapply Forall_impl; [exact IH|]. intros c Hc. apply Hc.
Qed.

Lemma html_first_of_silent (within : node -> option (Dispatch node))
  (l : list node) :
  Forall (fun c => forall w, within c = Some w -> sent w = [] -> value w = c) l ->
  forall w, first_of within l = Some w -> sent w = [] -> value w = l.
Proof.
  induction 1 as [|c l Hc _ IH]; intros w; simpl; [done|].
  destruct (within c) as [c'|] eqn:Ec.
  - intros [= <-]. rewrite sent_fmap, value_fmap. intros Hnil.
    by rewrite (Hc c').
  - destruct (first_of within l) as [rest'|]; [|done].
    intros [= <-]. rewrite sent_fmap, value_fmap. intros Hnil.
    by rewrite (IH rest').
Qed.

Lemma html_on_body_silent (f : node -> Dispatch node) (n : node) :
  (forall m, sent (f m) = [] -> value (f m) = m) ->
  forall w, on_body f n = Some w -> sent w = [] -> value w = n.
Proof.
  intros Hf.
  induction n as [s | cls s | name attrs children IH] using node_induction;
    intros w; simpl; [done|done|].
  destruct (bool_decide (name = "body")); [intros [= <-]; apply Hf|].
  destruct (first_of (on_body f) children) as [children'|] eqn:E; [|done].
  intros [= <-]. rewrite sent_fmap, value_fmap. intros Hnil.
  by rewrite (html_first_of_silent _ _ IH children').
Qed.

(** The HTML driver without a call of the service: the tree written is
    the tree read, every special tag flattened to its text. *)
Lemma html_silent_file (client : string -> option string) (soup : list node) :
  sent (process_file client soup) = [] ->
  value (process_file client soup) = with_flat_special <$> soup.
Proof.
  unfold process_file. rewrite sent_bind, value_bind.
  intros Hnil. apply app_eq_nil in Hnil as [Hspecial Hwalk].
  assert (Hflat : value (special_step client soup) = with_flat_special <$> soup).
  { unfold special_step in *. cbn [value sent] in *.
    apply Forall_fmap_ext_1, Forall_forall. intros n Hn.
    apply html_special_texts_flat. intros tag Htag.
    apply (mjoin_nil_elem _ _ Hspecial).
    apply list_elem_of_fmap. exists tag. split; [done|].
    apply list_elem_of_join. exists (find_all_special n). split; [done|].
    apply list_elem_of_fmap. by exists n. }
  rewrite Hflat in *.
  destruct (first_of _ (with_flat_special <$> soup)) as [walked|] eqn:E;
    [|done].
  apply (html_first_of_silent _ _ (proj2 (Forall_forall _ _)
           (fun c _ => html_on_body_silent _ c
              (fun m => html_walk_silent client m "[document]"))) _ E Hwalk).
Qed.

End SilentHtml.

(** ** Documents without translatable segments *)

Section NoSegments.
Import PyStr Html.

(** *** Reading and writing in text mode *)

Lemma string_pair_ind (P : string -> Prop) :
  P EmptyString ->
  (forall c, P (String c EmptyString)) ->
  (forall c d r, P r -> P (String d r) -> P (String c (String d r))) ->
  forall s, P s.
Proof.
  intros Hnil Hone Hstep s.
  enough (H : P s /\ forall c, P (String c s)) by apply H.
  induction s as [|d r [IH1 IH2]]; [by split|].
  split; [apply IH2|]. intros c. by apply Hstep.
Qed.

Lemma is_cr_eq (c : ascii) : Io.is_cr c = true -> c = "013"%char.
Proof.
  unfold Io.is_cr, code. intros H. apply Nat.eqb_eq in H.
  rewrite <- (ascii_nat_embedding c). by rewrite H.
Qed.

Lemma write_lf (s : string) : Io.write_text LF s = s.
Proof.
  induction s as [|c s IH]; [done|].
  cbn [Io.write_text]. rewrite IH.
  destruct (is_newline c) eqn:E; [|done].
  apply is_newline_eq in E. by subst c.
Qed.

(** A text that was read holds no carriage return. *)
Lemma read_text_no_cr (s : string) : existsb Io.is_cr (Io.read_text s) = false.
Proof.
  induction s as [|c|c d r IH1 IH2] using string_pair_ind; [done| |].
  - cbn [Io.read_text]. destruct (Io.is_cr c) eqn:E; [done|].
    simpl. by rewrite E.
  - cbn [Io.read_text]. destruct (Io.is_cr c) eqn:E.
    + destruct (is_newline d); cbn [existsb]; [exact IH1|exact IH2].
    + cbn [existsb]. rewrite E. exact IH2.
Qed.

Lemma read_text_plain (s : string) :
  existsb Io.is_cr s = false -> Io.read_text s = s.
Proof.
  induction s as [|c s IH]; [done|].
  cbn [existsb Io.read_text]. destruct (Io.is_cr c); [done|].
  simpl. intros H. by rewrite IH.
Qed.

Lemma read_write_lf (s : string) :
  existsb Io.is_cr s = false <-> Io.write_text LF (Io.read_text s) = s.
Proof.
  rewrite write_lf. split; [apply read_text_plain|].
  intros H. rewrite <- H. apply read_text_no_cr.
Qed.

Lemma read_write_crlf (s : string) :
  Io.crlf_only s = true -> Io.write_text (Io.CR +:+ LF) (Io.read_text s) = s.
Proof.
  induction s as [|c|c d r IH1 IH2] using string_pair_ind; [done| |].
  - cbn [Io.crlf_only Io.read_text]. destruct (Io.is_cr c); [done|].
    cbn [Io.write_text]. by destruct (is_newline c).
  - change (Io.crlf_only (String c (String d r)))
      with (if Io.is_cr c then is_newline d && Io.crlf_only r
            else negb (is_newline c) && Io.crlf_only (String d r)).
    change (Io.read_text (String c (String d r)))
      with (if Io.is_cr c
            then if is_newline d then String "010" (Io.read_text r)
                 else String "010" (Io.read_text (String d r))
            else String c (Io.read_text (String d r))).
    destruct (Io.is_cr c) eqn:Ec.
    + apply is_cr_eq in Ec. subst c.
      destruct (is_newline d) eqn:Ed; [|done].
      apply is_newline_eq in Ed. subst d.
      intros H.
      change (Io.write_text (Io.CR +:+ LF) (String "010" (Io.read_text r)))
        with (String "013" (String "010"
                (Io.write_text (Io.CR +:+ LF) (Io.read_text r)))).
      by rewrite (IH1 H).
    + destruct (is_newline c) eqn:En; [done|].
      intros H.
      change (Io.write_text (Io.CR +:+ LF)
                (String c (Io.read_text (String d r))))
        with (if is_newline c
              then (Io.CR +:+ LF)
                   +:+ Io.write_text (Io.CR +:+ LF)
                         (Io.read_text (String d r))
              else String c (Io.write_text (Io.CR +:+ LF)
                               (Io.read_text (String d r)))).
      rewrite En. by rewrite (IH2 H).
Qed.

(** Every text is the text of its encoding. *)
Lemma decode_encode_char (c : ascii) (rest : list byte) :
  Io.decode (Io.encode_char c ++ rest)
  = match Io.decode rest with
    | Some text => Some (String c text)
    | None => None
    end.
Proof. destruct c as [[] [] [] [] [] [] [] []]; reflexivity. Qed.

Lemma decode_encode (text : string) : Io.decode (Io.encode text) = Some text.
Proof.
  induction text as [|c text IH]; [done|].
  change (Io.encode (String c text))
    with (Io.encode_char c ++ Io.encode text)%list.
  by rewrite decode_encode_char, IH.
Qed.

(** What a driver writes when it hands nothing to the service and
    returns the text it was given. *)
Lemma silent_through (linesep : string) (process : string -> Dispatch string)
  (file : list byte) (text : string) :
  Io.decode file = Some text ->
  sent (process (Io.read_text text)) = [] ->
  value (process (Io.read_text text)) = Io.read_text text ->
  Io.through linesep process file
  = Some (Sent (Io.encode (Io.write_text linesep (Io.read_text text))) []).
Proof.
  intros Hfile Hsent Hvalue. unfold Io.through. rewrite Hfile.
  destruct (process (Io.read_text text)) as [v l]. simpl in *.
  by subst.
Qed.

(** C2, as stated, fails.  In the HTML driver the document below has no
    translatable segment, and nothing is handed to the service, but the
    special tag is rebuilt from its text: the element inside it is gone
    from the document written.  In the other three drivers the text is
    kept, but the file is not: the file of one empty line that ends with
    a carriage return and a line feed has no translatable segment, and
    where the line separator is the line feed it is written as a line
    feed alone; where the line separator is a carriage return and a
    line feed, the file of one line feed grows by a byte; and a byte
    that is no UTF-8 is not written at all.  The same holds of a source
    file without comments. *)
Lemma zero_segment_run_changes_output :
  let soup := [Element "body" [] [Element "pre" [] [Element "b" [] [Text "x"]]]] in
  let written := value (process_file Scenario.uppercase soup) in
  let drivers := [Cpp.process_file (fun _ => Scenario.uppercase);
                  Md.process_file (fun _ => Scenario.uppercase);
                  Tex.process_file (fun _ => Scenario.uppercase)] in
  (sent (process_file Scenario.uppercase soup) = []
   /\ written = [Element "body" [] [Element "pre" [] [Text "x"]]]
   /\ concat (serialize <$> soup) = "<body><pre><b>x</b></pre></body>"
   /\ concat (serialize <$> written) = "<body><pre>x</pre></body>"
   /\ concat (serialize <$> written) <> concat (serialize <$> soup))
  /\ (fun process => Io.through LF process [x0d; x0a]) <$> drivers
     = [Some (Sent [x0a] []); Some (Sent [x0a] []); Some (Sent [x0a] [])]
  /\ (fun process => Io.through (Io.CR +:+ LF) process [x0a]) <$> drivers
     = [Some (Sent [x0d; x0a] []); Some (Sent [x0d; x0a] []);
        Some (Sent [x0d; x0a] [])]
  /\ (fun process => Io.through LF process [xff; x0a]) <$> drivers
     = [Some (Sent [x0a] []); Some (Sent [x0a] []); Some (Sent [x0a] [])]
  /\ Io.through LF (Cpp.process_file (fun _ => Scenario.uppercase))
       (list_byte_of_string ("int x;" +:+ Io.CR +:+ LF))
     = Some (Sent (list_byte_of_string ("int x;" +:+ LF)) []).
Proof.
  cbv zeta. repeat split; try (vm_compute; reflexivity).
  vm_compute. discriminate.
Qed.

(** C2, amended.  A document without translatable segments (no
    comment in the C-family driver, no segment line in the Markdown and
    the TeX driver) hands no text to the service.  When a run hands no
    text to the service, the C-family, the Markdown and the TeX driver
    write the text they read: the file written is the UTF-8 encoding of
    the text of the file read, with every line ending written as the
    line separator of the platform.
    It is the file read, byte for byte, when no byte was ignored on
    reading (the file is the encoding of its text) and the line endings
    of the file are the line separator of the platform: where that is
    the line feed, this says that the text holds no carriage return;
    where it is a carriage return and a line feed, it holds when every
    line ends with the two and there is no other carriage return or
    line feed.  Every text is the text of its encoding, so that such
    files exist for every text.  The HTML driver writes the tree it
    read with every special tag flattened: the children of the tag are
    replaced by one text node that holds the text of the tag. *)
Theorem silent_run_output
  (client : nat -> string -> option string)
  (client_html : string -> option string)
  (linesep : string) (file : list byte) (text : string) (soup : list node) :
  Io.decode file = Some text ->
  (forall content,
     (Re.finditer Cpp.comment_pattern content = [] ->
      sent (Cpp.process_file client content) = [])
     /\ (Md.segment 0 false (readlines content) = [] ->
         sent (Md.process_file client content) = [])
     /\ (Tex.segment 0 false (readlines content) = [] ->
         sent (Tex.process_file client content) = []))
  /\ (forall process,
     process ∈ [Cpp.process_file client; Md.process_file client;
                Tex.process_file client] ->
     sent (process (Io.read_text text)) = [] ->
     Io.through linesep process file
     = Some (Sent (Io.encode (Io.write_text linesep (Io.read_text text))) [])
     /\ (Io.encode text = file ->
         Io.write_text linesep (Io.read_text text) = text ->
         Io.through linesep process file = Some (Sent file [])))
  /\ (existsb Io.is_cr text = false
      <-> Io.write_text LF (Io.read_text text) = text)
  /\ (Io.crlf_only text = true ->
      Io.write_text (Io.CR +:+ LF) (Io.read_text text) = text)
  /\ Io.decode (Io.encode text) = Some text
  /\ (sent (process_file client_html soup) = [] ->
      value (process_file client_html soup) = with_flat_special <$> soup).
Proof.
  intros Hfile.
  split.
  { intros content. unfold Cpp.process_file, Md.process_file, Tex.process_file.
    rewrite !sent_fmap. unfold Md.process_lines, Tex.process_lines.
    by repeat split; intros ->. }
  split; [|split; [apply read_write_lf|split; [apply read_write_crlf|
           split; [apply decode_encode|apply html_silent_file]]]].
  intros process Hin Hsent.
  assert (Hout : Io.through linesep process file
                 = Some (Sent (Io.encode (Io.write_text linesep
                                            (Io.read_text text))) [])).
  { apply silent_through; [done|done|].
    apply elem_of_cons in Hin as [->|Hin]; [by apply cpp_silent_file|].
    apply elem_of_cons in Hin as [->|Hin]; [by apply md_silent_file|].
    apply list_elem_of_singleton in Hin as ->. by apply tex_silent_file. }
  split; [exact Hout|].
  intros Hvalid Hends. by rewrite Hout, Hends, Hvalid.
Qed.

Lemma silent_run_output_witness :
  let content := "// ---" +:+ LF +:+ "```" +:+ LF +:+ "\{" +:+ LF +:+ "x = 1"
                 +:+ LF +:+ "\}" +:+ LF +:+ "```" +:+ LF in
  let soup := [Element "body" [] [Element "pre" [] [Element "b" [] [Text "x"]]]] in
  Io.through LF (Cpp.process_file (fun _ => Scenario.uppercase))
    (list_byte_of_string content)
  = Some (Sent (list_byte_of_string content) [])
  /\ Io.through LF (Md.process_file (fun _ => Scenario.uppercase))
       (list_byte_of_string content)
     = Some (Sent (list_byte_of_string content) [])
  /\ Io.through LF (Tex.process_file (fun _ => Scenario.uppercase))
       (list_byte_of_string content)
     = Some (Sent (list_byte_of_string content) [])
  /\ value (process_file Scenario.uppercase soup)
     = [Element "body" [] [Element "pre" [] [Text "x"]]].
Proof.
  cbv zeta.
  pose proof (silent_run_output (fun _ => Scenario.uppercase) Scenario.uppercase
                LF
                (list_byte_of_string
                   ("// ---" +:+ LF +:+ "```" +:+ LF +:+ "\{" +:+ LF +:+ "x = 1"
                    +:+ LF +:+ "\}" +:+ LF +:+ "```" +:+ LF))
                ("// ---" +:+ LF +:+ "```" +:+ LF +:+ "\{" +:+ LF +:+ "x = 1"
                 +:+ LF +:+ "\}" +:+ LF +:+ "```" +:+ LF)
                [Element "body" [] [Element "pre" [] [Element "b" [] [Text "x"]]]]
                eq_refl)
    as (_ & Hfiles & _ & _ & _ & Hhtml).
  split; [apply Hfiles; [left|reflexivity..]|].
  split; [apply Hfiles; [right; left|reflexivity..]|].
  split; [apply Hfiles; [right; right; left|reflexivity..]|].
  rewrite Hhtml; reflexivity.
Defined.

End NoSegments.

(** ** The concurrency limit *)

Section Semaphore.
Import Async.

Lemma bracketed_holding (code : list instr) (inside : bool) :
  bracketed inside code = true -> holding code = inside.
Proof.
  revert inside; induction code as [|[] k IH]; intros inside; simpl.
  - by destruct inside.
  - by destruct inside.
  - by destruct inside.
  - apply IH.
  - destruct inside; [apply IH | done].
Qed.

Lemma driver_task_bracketed (c : list instr) :
  Batch.driver_task c -> bracketed false c = true.
Proof.
  intros (text & [-> | [-> | [-> | ->]]]).
  - reflexivity.
  - unfold Cpp.task_path.
    destruct (negb (PyStr.has_alnum text)); [done|].
    by destruct (negb (PyStr.truthy (Cpp.clean text))).
  - unfold Md.task_path.
    destruct (negb (PyStr.has_alnum text)); [done|].
    by destruct (negb (PyStr.has_alnum (Md.line_with_placeholders text))).
  - unfold Tex.task_path.
    destruct (negb (PyStr.has_alnum text)); [done|].
    by destruct (negb (PyStr.truthy (PyStr.strip text))).
Qed.

Lemma count_insert {A : Type} (f : A -> bool) (l : list A) (i : nat) (x y : A) :
  l !! i = Some x ->
  length (List.filter f (<[i := y]> l)) + weight f x
  = length (List.filter f l) + weight f y.
Proof.
  unfold weight.
  revert i; induction l as [|a l IH]; intros [|i] Hi; simpl in *; try done.
  - injection Hi as ->. destruct (f x), (f y); simpl; lia.
  - specialize (IH i Hi). destruct (f a); simpl; lia.
Qed.

Lemma count_snoc {A : Type} (f : A -> bool) (l : list A) (x : A) :
  length (List.filter f (l ++ [x])) = length (List.filter f l) + weight f x.
Proof.
  unfold weight. rewrite List.filter_app, length_app. simpl.
  by destruct (f x).
Qed.

Lemma count_mono {A : Type} (f g : A -> bool) (l : list A) :
  Forall (fun x => f x = true -> g x = true) l ->
  length (List.filter f l) <= length (List.filter g l).
Proof.
  induction 1 as [|x l Hx _ IH]; simpl; [done|].
  destruct (f x) eqn:Ef.
  - rewrite Hx by done. simpl. lia.
  - destruct (g x); simpl; lia.
Qed.

Lemma pool_ok_step (limit : nat) (p q : pool) :
  pool_ok limit p -> step Batch.driver_task p q -> pool_ok limit q.
Proof.
  intros [Hsum Hall] Hstep. unfold pool_ok, held in *.
  destruct Hstep as [p c Hc | p i k n Hi Hn | p i k Hi | p i k Hi
                    | p i k Hi | p i k Hi]; simpl.
  - apply driver_task_bracketed in Hc.
    pose proof (bracketed_holding _ _ Hc) as Hh.
    rewrite count_snoc. unfold weight. simpl. rewrite Hh. split; [lia|].
    apply Forall_app. split; [done|]. apply Forall_singleton.
    split; simpl; [by rewrite Hh | done].
  - pose proof (Forall_lookup_1 _ _ _ _ Hall Hi) as [Hb _]. simpl in Hb.
    pose proof (bracketed_holding _ _ Hb) as Hk.
    pose proof (count_insert (fun t => holding (code t)) _ _ _
                  (Task k false) Hi) as Hcount.
    unfold weight in Hcount. simpl in Hcount. rewrite Hk in Hcount.
    split; [lia|]. apply Forall_insert; [done|].
    split; simpl; [by rewrite Hk | done].
  - pose proof (Forall_lookup_1 _ _ _ _ Hall Hi) as [Hb _]. simpl in Hb.
    pose proof (bracketed_holding _ _ Hb) as Hk.
    pose proof (count_insert (fun t => holding (code t)) _ _ _
                  (Task k false) Hi) as Hcount.
    unfold weight in Hcount. simpl in Hcount. rewrite Hk in Hcount.
    split; [lia|]. apply Forall_insert; [done|].
    split; simpl; [by rewrite Hk | done].
  - pose proof (Forall_lookup_1 _ _ _ _ Hall Hi) as [Hb _]. simpl in Hb.
    pose proof (count_insert (fun t => holding (code t)) _ _ _
                  (Task k false) Hi) as Hcount.
    unfold weight in Hcount. simpl in Hcount.
    split; [lia|]. apply Forall_insert; [done|]. by split.
  - pose proof (Forall_lookup_1 _ _ _ _ Hall Hi) as [Hb _]. simpl in Hb.
    pose proof (count_insert (fun t => holding (code t)) _ _ _
                  (Task (Translate :: k) true) Hi) as Hcount.
    unfold weight in Hcount. simpl in Hcount.
    split; [lia|]. apply Forall_insert; [done|].
    split; simpl; [done | by exists k].
  - pose proof (Forall_lookup_1 _ _ _ _ Hall Hi) as [Hb _]. simpl in Hb.
    pose proof (count_insert (fun t => holding (code t)) _ _ _
                  (Task k false) Hi) as Hcount.
    unfold weight in Hcount. simpl in Hcount.
    apply andb_prop in Hb as [_ Hb].
    split; [lia|]. apply Forall_insert; [done|]. by split.
Qed.

Lemma pool_ok_reachable (limit : nat) (p : pool) :
  reachable Batch.driver_task limit p -> pool_ok limit p.
Proof.
  unfold reachable. revert p. apply rtc_ind_r.
  - split; [unfold held; simpl; lia | apply List.Forall_nil].
  - intros q r _ Hstep IH. by eapply pool_ok_step.
Qed.

(** C9.  At every point of a batch, whatever the files and the
    interleaving of their tasks, the number of calls of the service that
    are outstanding is at most the limit the semaphore was created with:
    the free permits and the tasks inside the block always add up to the
    limit, and a task calls the service inside the block only. *)
Theorem outstanding_calls_bounded (limit : nat) (p : pool) :
  reachable Batch.driver_task limit p ->
  outstanding p <= limit /\ permits p + held p = limit.
Proof.
  intros Hreach. destruct (pool_ok_reachable _ _ Hreach) as [Hsum Hall].
  split; [|done].
  assert (outstanding p <= held p); [|lia].
  unfold outstanding, held. apply count_mono.
  eapply Forall_impl; [exact Hall|].
  intros t [Hb Hcall] Hin. destruct (Hcall Hin) as [k Hk].
  rewrite Hk in *. simpl in *. by apply andb_prop in Hb as [-> _].
Qed.

End Semaphore.

Lemma outstanding_calls_bounded_witness :
  Async.outstanding (Async.Pool 0 [Async.Task [Async.Translate; Async.Release] true]) <= 1
  /\ Async.permits (Async.Pool 0 [Async.Task [Async.Translate; Async.Release] true])
     + Async.held (Async.Pool 0 [Async.Task [Async.Translate; Async.Release] true])
     = 1.
Proof.
  apply (outstanding_calls_bounded 1).
  unfold Async.reachable.
  eapply rtc_l.
  { apply (Async.step_spawn _ (Async.initial 1) (Cpp.task_path "// hi")).
    exists "// hi". right; left; reflexivity. }
  eapply rtc_l.
  { apply (Async.step_acquire _ _ 0 [Async.Sleep; Async.Translate; Async.Release] 0);
      reflexivity. }
  eapply rtc_l.
  { apply (Async.step_sleep _ _ 0 [Async.Translate; Async.Release]); reflexivity. }
  eapply rtc_l.
  { apply (Async.step_call _ _ 0 [Async.Release]); reflexivity. }
  apply rtc_refl.
Defined.

Lemma md_code_block_lines_protected_witness :
  (forall inf,
     inf ∈ Md.segment 0 false
             ["intro" +:+ PyStr.LF; "```" +:+ PyStr.LF; "x = 1" +:+ PyStr.LF;
              "```" +:+ PyStr.LF; "outro" +:+ PyStr.LF] ->
     Md.index inf <> 2)
  /\ value (Md.process_lines (fun _ => Scenario.uppercase)
              ["intro" +:+ PyStr.LF; "```" +:+ PyStr.LF; "x = 1" +:+ PyStr.LF;
               "```" +:+ PyStr.LF; "outro" +:+ PyStr.LF]) !! 2
     = Some ("x = 1" +:+ PyStr.LF).
Proof.
  destruct (md_code_block_lines_protected (fun _ => Scenario.uppercase)
              ["intro" +:+ PyStr.LF; "```" +:+ PyStr.LF; "x = 1" +:+ PyStr.LF;
               "```" +:+ PyStr.LF; "outro" +:+ PyStr.LF] 2)
    as (Hseg & _ & Hline).
  - reflexivity.
  - split; [exact Hseg | exact Hline].
Defined.

(** * Further properties of the drivers *)

(** ** Character classes and stripping *)

Section Stripping.
Import PyStr.

Lemma alnum_not_space (c : ascii) : is_alnum c = true -> isspace c = false.
Proof.
  destruct c as [[] [] [] [] [] [] [] []]; vm_compute; congruence.
Qed.

Lemma alnum_not_delimiter (c : ascii) :
  is_alnum c = true -> mem c "/*" = false.
Proof.
  destruct c as [[] [] [] [] [] [] [] []]; vm_compute; congruence.
Qed.

Lemma existsb_append (q : ascii -> bool) (a b : string) :
  existsb q (a +:+ b) = existsb q a || existsb q b.
Proof.
  induction a as [|c a IH]; simpl; [done|]. by rewrite IH, orb_assoc.
Qed.

(** Stripping characters of one class keeps the characters of a disjoint
    class. *)
Lemma existsb_lstrip_of (p q : ascii -> bool) (s : string) :
  (forall c, q c = true -> p c = false) ->
  existsb q (lstrip_of p s) = existsb q s.
Proof.
  intros Hpq. induction s as [|c s IH]; simpl; [done|].
  destruct (p c) eqn:Ep; [|done].
  rewrite IH. destruct (q c) eqn:Eq; [|done].
  apply Hpq in Eq. congruence.
Qed.

Lemma existsb_rstrip_of (p q : ascii -> bool) (s : string) :
  (forall c, q c = true -> p c = false) ->
  existsb q (rstrip_of p s) = existsb q s.
Proof.
  intros Hpq. induction s as [|c s IH]; simpl; [done|].
  destruct (rstrip_of p s) as [|d r] eqn:E.
  - simpl in IH. rewrite <- IH.
    destruct (p c) eqn:Ep; simpl; [|by rewrite orb_false_r].
    destruct (q c) eqn:Eq; [|done]. apply Hpq in Eq. congruence.
  - simpl in *. by rewrite IH.
Qed.

Lemma has_alnum_strip (s : string) : has_alnum (strip s) = has_alnum s.
Proof.
  unfold has_alnum, strip, rstrip, lstrip.
  rewrite existsb_rstrip_of, existsb_lstrip_of; auto using alnum_not_space.
Qed.

Lemma has_alnum_truthy (s : string) : has_alnum s = true -> truthy s = true.
Proof. by destruct s. Qed.

(** A text that does not start with a character of the class is left
    alone by [lstrip], also after [rstrip]. *)
Lemma lstrip_of_rstrip_of (p q : ascii -> bool) (s : string) :
  lstrip_of p s = s -> lstrip_of p (rstrip_of q s) = rstrip_of q s.
Proof.
  destruct s as [|c s]; [done|]. simpl.
  destruct (p c) eqn:Ep.
  - intros H. pose proof (lstrip_of_length p s) as Hlen.
    rewrite H in Hlen. simpl in Hlen. lia.
  - intros _. destruct (rstrip_of q s); [destruct (q c)|]; simpl;
      by rewrite ?Ep.
Qed.

Lemma rstrip_of_idemp (p : ascii -> bool) (s : string) :
  rstrip_of p (rstrip_of p s) = rstrip_of p s.
Proof.
  induction s as [|c s IH]; simpl; [done|].
  destruct (rstrip_of p s) as [|d r] eqn:E.
  - destruct (p c) eqn:Ep; simpl; [done | by rewrite Ep].
  - simpl in IH. simpl.
    destruct (match rstrip_of p r with
              | "" => if p d then "" else String d ""
              | String a s0 => String d (String a s0)
              end) eqn:E2; [discriminate | by rewrite <- IH].
Qed.

Lemma strip_idemp (s : string) : strip (strip s) = strip s.
Proof.
  unfold strip, rstrip, lstrip.
  rewrite (lstrip_of_rstrip_of isspace isspace (lstrip_of isspace s))
    by apply lstrip_of_idemp.
  apply rstrip_of_idemp.
Qed.

Lemma forallb_take_lstrip (p : ascii -> bool) (s : string) :
  Md.forallb p (take (String.length s - String.length (lstrip_of p s)) s)
  = true.
Proof.
  induction s as [|c s IH]; simpl; [done|].
  destruct (p c) eqn:Ep; simpl.
  - pose proof (lstrip_of_length p s).
    replace (S (String.length s) - String.length (lstrip_of p s))
      with (S (String.length s - String.length (lstrip_of p s))) by lia.
    simpl. by rewrite Ep, IH.
  - by rewrite Nat.sub_diag.
Qed.

(** The slice that the wrappers take as indentation is the white space
    that [lstrip] removes. *)
Lemma indent_of_take (text : string) :
  indent_of text
  = take (String.length text - String.length (lstrip text)) text.
Proof.
  unfold indent_of, slice_to.
  pose proof (lstrip_of_length isspace text) as Hlen. fold (lstrip text) in Hlen.
  destruct (Z.ltb_spec
              (Z.of_nat (String.length text)
               - Z.of_nat (String.length (lstrip text))) 0) as [Hneg|_];
    [lia|].
  f_equal. lia.
Qed.

Lemma indent_of_lstrip (text : string) : indent_of text +:+ lstrip text = text.
Proof.
  rewrite indent_of_take.
  etrans; [|apply (take_drop
                    (String.length text - String.length (lstrip text)) text)].
  f_equal. symmetry. apply lstrip_suffix.
Qed.

End Stripping.

(** ** When the wrappers call the service *)

Section Wrappers.
Import PyStr.

Lemma alnum_not_slash (c : ascii) : is_alnum c = true -> mem c "//" = false.
Proof.
  destruct c as [[] [] [] [] [] [] [] []]; vm_compute; congruence.
Qed.

Lemma alnum_not_closing (c : ascii) : is_alnum c = true -> mem c "*/" = false.
Proof.
  destruct c as [[] [] [] [] [] [] [] []]; vm_compute; congruence.
Qed.

Lemma cpp_clean_has_alnum (text : string) :
  has_alnum (Cpp.clean text) = has_alnum text.
Proof.
  unfold Cpp.clean. rewrite has_alnum_strip. unfold has_alnum.
  rewrite existsb_rstrip_of by apply alnum_not_closing.
  rewrite existsb_lstrip_of by apply alnum_not_delimiter.
  rewrite existsb_lstrip_of by apply alnum_not_slash.
  apply has_alnum_strip.
Qed.

(** X1.  The wrapper of the C-family driver calls the service exactly
    when the comment holds a letter or a digit, and then once, with the
    cleaned text.  The cleaned text holds a letter or a digit whenever the
    comment does, so the test for an empty cleaned text inside the block
    never fires, and it has no white space at either end. *)
Theorem cpp_wrapper_call_condition (client : string -> option string)
  (text : string) :
  sent (Cpp.translate_with_semaphore client text)
    = (if has_alnum text then [Cpp.clean text] else [])
  /\ has_alnum (Cpp.clean text) = has_alnum text
  /\ strip (Cpp.clean text) = Cpp.clean text.
Proof.
  split; [|split; [apply cpp_clean_has_alnum | apply strip_idemp]].
  unfold Cpp.translate_with_semaphore.
  destruct (has_alnum text) eqn:Ea; simpl; [|done].
  rewrite (has_alnum_truthy (Cpp.clean text))
    by (by rewrite cpp_clean_has_alnum).
  simpl. dispatch_simpl.
  destruct (client (Cpp.clean text)); [|done].
  by destruct (startswith "//" (lstrip text)), (startswith "/*" (lstrip text)).
Qed.

(** X2.  The wrapper of the TeX driver calls the service exactly when the
    text holds a letter or a digit, and then once, with the stripped text.
    A translation comes back behind the leading white space of the text
    and in front of one line feed, whatever followed the text before; a
    failed call gives the text back.  The leading white space is what
    [lstrip] takes off the text. *)
Theorem tex_wrapper_result (client : string -> option string) (text : string) :
  sent (Tex.translate_with_semaphore client text)
    = (if has_alnum text then [strip text] else [])
  /\ value (Tex.translate_with_semaphore client text)
     = (if has_alnum text then
          match client (strip text) with
          | Some t => indent_of text +:+ t +:+ LF
          | None => text
          end
        else text)
  /\ indent_of text +:+ lstrip text = text
  /\ Md.forallb isspace (indent_of text) = true.
Proof.
  assert (Hcall : has_alnum text = true -> truthy (strip text) = true).
  { intros H. apply has_alnum_truthy. by rewrite has_alnum_strip. }
  unfold Tex.translate_with_semaphore.
  destruct (has_alnum text) eqn:Ea; simpl.
  - rewrite Hcall by done. simpl. dispatch_simpl.
    repeat split.
    + by destruct (client (strip text)).
    + by destruct (client (strip text)).
    + apply indent_of_lstrip.
    + rewrite indent_of_take. apply forallb_take_lstrip.
  - repeat split; [apply indent_of_lstrip|].
    rewrite indent_of_take. apply forallb_take_lstrip.
Qed.

Lemma has_alnum_append (a b : string) :
  has_alnum (a +:+ b) = has_alnum a || has_alnum b.
Proof. apply existsb_append. Qed.

Lemma md_placeholder_has_alnum (k : nat) : has_alnum (Md.placeholder k) = true.
Proof.
  unfold Md.placeholder. rewrite has_alnum_append. reflexivity.
Qed.

(** A letter or a digit of the subject is still there, or a placeholder
    is, after the matches are replaced by placeholders. *)
Lemma has_alnum_render_placeholders (ps : list Re.piece) (k : nat) :
  has_alnum (Re.render (fun _ x => x) k ps) = true ->
  has_alnum (Re.render (fun j _ => Md.placeholder j) k ps) = true.
Proof.
  revert k; induction ps as [|[c|x] ps IH]; intros k; [done| |].
  - cbn [Re.render]. unfold has_alnum in *. simpl.
    destruct (is_alnum c); simpl; [done | apply IH].
  - cbn [Re.render]. intros _.
    by rewrite has_alnum_append, md_placeholder_has_alnum.
Qed.

Lemma md_line_with_placeholders_has_alnum (line : string) :
  has_alnum line = true -> has_alnum (Md.line_with_placeholders line) = true.
Proof.
  intros H. unfold Md.line_with_placeholders, Re.sub_counting.
  apply has_alnum_render_placeholders.
  unfold Re.pieces. rewrite (render_scan_id Md.inline_code_pattern line 0 0).
  by destruct line.
Qed.

(** X3.  [translate_line] calls the service exactly when the line holds a
    letter or a digit, and then once, with the line in which the code
    spans are replaced by placeholders.  A placeholder holds letters, so
    the second test for letters and digits never returns early. *)
Theorem md_line_call_condition (client : string -> option string)
  (line : string) :
  sent (Md.translate_line client line)
    = (if has_alnum line then [Md.line_with_placeholders line] else [])
  /\ (has_alnum line = true ->
      has_alnum (Md.line_with_placeholders line) = true).
Proof.
  split; [|apply md_line_with_placeholders_has_alnum].
  unfold Md.translate_line.
  destruct (has_alnum line) eqn:Ea; simpl; [|done].
  rewrite md_line_with_placeholders_has_alnum by done. simpl.
  dispatch_simpl.
  by destruct (client (Md.line_with_placeholders line) ≫= _).
Qed.

End Wrappers.

(** ** The comments that the C-family driver finds *)

Section CppComments.
Import PyStr.

(** Every match of a scan is the text that the pattern matched at some
    position. *)
Lemma scan_hit_origin (m : string -> option nat) (s : string) (skip : nat)
  (x : string) :
  x ∈ Re.hits (Re.scan m skip s) ->
  exists s' n, m s' = Some (S n) /\ x = take (S n) s'.
Proof.
  revert skip; induction s as [|c s IH]; intros skip; simpl.
  - intros H. by apply elem_of_nil in H.
  - destruct skip as [|skip]; [|apply IH].
    destruct (m (String c s)) as [[|n]|] eqn:E; simpl.
    + apply IH.
    + intros H. apply elem_of_cons in H as [->|H]; [|by eapply IH].
      by exists (String c s), n.
    + apply IH.
Qed.

Lemma line_rest_take (r : string) :
  take (String.length (Cpp.line_rest r)) r = Cpp.line_rest r.
Proof.
  induction r as [|c r IH]; simpl; [done|].
  destruct (is_newline c); simpl; [done | by rewrite IH].
Qed.

Lemma line_rest_one_line (r : string) :
  existsb is_newline (Cpp.line_rest r) = false.
Proof.
  induction r as [|c r IH]; simpl; [done|].
  destruct (is_newline c) eqn:E; simpl; [done | by rewrite E, IH].
Qed.

Lemma prefix_take (p s : string) :
  String.prefix p s = true -> take (String.length p) s = p.
Proof.
  revert s; induction p as [|a p IH]; intros [|b s]; simpl; try done.
  destruct (ascii_dec a b) as [->|]; [|done].
  intros H. by rewrite IH.
Qed.

Lemma startswith_append (p s : string) : startswith p (p +:+ s) = true.
Proof.
  unfold startswith. induction p as [|a p IH]; simpl; [by destruct s|].
  by destruct (ascii_dec a a).
Qed.

(** The text up to the end of the first occurrence of [p] ends with
    [p]. *)
Lemma index_take (p r : string) (k : nat) :
  String.index 0 p r = Some k ->
  take (k + String.length p) r = take k r +:+ p.
Proof.
  revert k; induction r as [|b r IH]; intros k.
  - simpl. destruct p; [|done]. by intros [= <-].
  - change (String.index 0 p (String b r))
      with (if String.prefix p (String b r) then Some 0
            else match String.index 0 p r with
                 | Some n => Some (S n)
                 | None => None
                 end).
    destruct (String.prefix p (String b r)) eqn:Ep.
    + intros [= <-]. by apply (prefix_take p (String b r)).
    + destruct (String.index 0 p r) as [n|] eqn:En; [|done].
      intros [= <-]. simpl. by rewrite (IH n).
Qed.

Ltac case_scrutinee H :=
  repeat match type of H with
         | context [match ?x with _ => _ end] =>
             is_var x; destruct x; try discriminate H
         end.

(** What the comment pattern matches at the head of a text. *)
Lemma cpp_match_shape (s : string) (n : nat) :
  Cpp.comment_pattern s = Some (S n) ->
  (exists body,
     take (S n) s = "//" +:+ body /\ existsb is_newline body = false)
  \/ (exists body, take (S n) s = "/*" +:+ body +:+ "*/").
Proof.
  unfold Cpp.comment_pattern. intros H. case_scrutinee H.
  - left. injection H as <-. exists (Cpp.line_rest s). simpl.
    by rewrite line_rest_take, line_rest_one_line.
  - right. destruct (String.index 0 "*/" s) as [k|] eqn:Ek; [|done].
    injection H as <-. exists (take k s).
    change (String "/" (String "*" (take (k + 2) s))
            = String "/" (String "*" (take k s +:+ "*/"))).
    do 2 f_equal. exact (index_take "*/" s k Ek).
Qed.

Lemma cpp_hit_shape (content c : string) :
  c ∈ Re.finditer Cpp.comment_pattern content ->
  (exists body, c = "//" +:+ body /\ existsb is_newline body = false)
  \/ (exists body, c = "/*" +:+ body +:+ "*/").
Proof.
  intros H. apply scan_hit_origin in H as (s' & n & Hm & ->).
  by apply cpp_match_shape.
Qed.

(** X4.  Every comment that the C-family driver finds in a file is a line
    comment, two slashes and text without a line feed, or a block
    comment, which starts with a slash and a star and ends with a star
    and a slash. *)
Theorem cpp_found_comments_are_comments (content c : string) :
  c ∈ Re.finditer Cpp.comment_pattern content ->
  (exists body, c = "//" +:+ body /\ existsb is_newline body = false)
  \/ (exists body, c = "/*" +:+ body +:+ "*/").
Proof. apply cpp_hit_shape. Qed.

Lemma cpp_found_comments_are_comments_witness :
  (exists body, "// a" = "//" +:+ body /\ existsb is_newline body = false)
  \/ (exists body, "// a" = "/*" +:+ body +:+ "*/").
Proof.
  apply (cpp_found_comments_are_comments
           ("x = 1; // a" +:+ LF +:+ "/* b" +:+ LF +:+ "c */") "// a").
  by_decide.
Defined.

(** X5.  The result of the wrapper for a comment that the driver found
    is the comment itself, when the comment holds no letter or digit or
    the call fails, and otherwise a comment of the same kind around the
    translation: two slashes, a space and the translation, or the
    translation between a slash-star with a space and a space with a
    star-slash.  No indentation is put in front, and the branch of the
    wrapper for texts that are no comments is never taken. *)
Theorem cpp_replacement_is_a_comment (client : string -> option string)
  (content c : string) :
  c ∈ Re.finditer Cpp.comment_pattern content ->
  value (Cpp.translate_with_semaphore client c)
  = (if has_alnum c then
       match client (Cpp.clean c) with
       | Some t =>
           if startswith "//" c then "// " +:+ t else "/* " +:+ t +:+ " */"
       | None => c
       end
     else c).
Proof.
  intros Hc.
  assert (Hshape : lstrip c = c
                   /\ (startswith "//" c = true
                       \/ startswith "//" c = false /\ startswith "/*" c = true)).
  { destruct (cpp_hit_shape _ _ Hc) as [(body & -> & _) | (body & ->)].
    - split; [reflexivity | left; apply startswith_append].
    - split; [reflexivity | right; split; [reflexivity|]].
      apply (startswith_append "/*"). }
  destruct Hshape as [Hl Hkind].
  unfold Cpp.translate_with_semaphore.
  destruct (has_alnum c) eqn:Ea; simpl; [|done].
  rewrite (has_alnum_truthy (Cpp.clean c)) by (by rewrite cpp_clean_has_alnum).
  simpl. dispatch_simpl.
  destruct (client (Cpp.clean c)) as [t|]; [|done].
  assert (Hindent : indent_of c = "").
  { rewrite indent_of_take, Hl, Nat.sub_diag. by destruct c. }
  rewrite Hl, Hindent.
  destruct Hkind as [-> | [-> ->]]; done.
Qed.

Lemma cpp_replacement_is_a_comment_witness :
  value (Cpp.translate_with_semaphore Scenario.uppercase ("/* b" +:+ LF +:+ "c */"))
  = "/* B" +:+ LF +:+ "C */".
Proof.
  rewrite (cpp_replacement_is_a_comment Scenario.uppercase
             ("x = 1; // a" +:+ LF +:+ "/* b" +:+ LF +:+ "c */")
             ("/* b" +:+ LF +:+ "c */")).
  - reflexivity.
  - by_decide.
Defined.

End CppComments.

(** ** Files whose comments are all different *)

Section CppDistinct.
Import PyStr.

(** Two replacement functions that agree on the matches, position by
    position, give the same output. *)
Lemma render_by_index (r r' : nat -> string -> string) (ps : list Re.piece) :
  forall k k',
    (forall j x, Re.hits ps !! j = Some x -> r (k + j) x = r' (k' + j) x) ->
    Re.render r k ps = Re.render r' k' ps.
Proof.
  induction ps as [|[c|y] ps IH]; intros k k' H; simpl; [done| |].
  - f_equal. by apply IH.
  - specialize (H 0 y eq_refl) as H0. rewrite !Nat.add_0_r in H0.
    rewrite H0. f_equal. apply IH. intros j x Hj.
    specialize (H (S j) x Hj). by rewrite !Nat.add_succ_r in H.
Qed.

(** X6.  When no comment text occurs twice in a file, the C-family
    driver replaces every comment by the result of its own task: the
    comment itself when it holds no letter or digit or its call fails,
    its translation otherwise.  A failed call leaves the other comments
    with their translations. *)
Theorem cpp_distinct_comments_own_results
  (client : nat -> string -> option string) (content : string) :
  NoDup (Re.finditer Cpp.comment_pattern content) ->
  value (Cpp.process_file client content)
  = Re.sub_counting Cpp.comment_pattern
      (fun j c => value (Cpp.translate_with_semaphore (client j) c)) content.
Proof.
  intros Hnd. unfold Cpp.process_file, Re.sub_counting.
  destruct (Re.finditer Cpp.comment_pattern content) as [|c0 cs] eqn:E.
  - dispatch_simpl. rewrite <- (sub_id Cpp.comment_pattern content) at 1.
    apply render_by_index. unfold Re.finditer in E.
    intros j x Hj. rewrite E in Hj. done.
  - set (comments := c0 :: cs) in *. dispatch_simpl.
    apply render_by_index. intros j x Hj. cbv beta.
    rewrite !Nat.add_0_l.
    change (Re.hits (Re.pieces Cpp.comment_pattern content))
      with (Re.finditer Cpp.comment_pattern content) in Hj.
    rewrite E in Hj.
    unfold Cpp.replace_comment, Cpp.dict_of_zip.
    erewrite (foldl_assign_last ∅
                (zip comments (value <$> Cpp.tasks_of client comments)) x j);
      [done| |].
    + apply cpp_zip_lookup. eauto.
    + intros j' v' Hlt Hz. apply cpp_zip_lookup in Hz as [Hz _].
      pose proof (NoDup_lookup _ _ _ _ Hnd Hj Hz). lia.
Qed.

Lemma cpp_distinct_comments_own_results_witness :
  value (Cpp.process_file
           (fun j => if Nat.eqb j 0 then Scenario.down else Scenario.uppercase)
           ("// one" +:+ LF +:+ "// two" +:+ LF))
  = "// one" +:+ LF +:+ "// TWO" +:+ LF.
Proof.
  rewrite (cpp_distinct_comments_own_results
             (fun j => if Nat.eqb j 0 then Scenario.down else Scenario.uppercase)
             ("// one" +:+ LF +:+ "// two" +:+ LF)).
  - reflexivity.
  - by_decide.
Defined.

End CppDistinct.

(** ** Tasks that hand their text back *)

Section Echo.
Import PyStr Html.

Lemma echo_tasks_values (task : nat -> string -> Dispatch string)
  (texts : list string) :
  (forall j text, value (task j text) = text) ->
  value <$> imap task texts = texts.
Proof.
  intros Htask. apply list_eq. intros j.
  rewrite list_lookup_fmap, list_lookup_imap.
  destruct (texts !! j) as [text|]; simpl; [|done]. by rewrite Htask.
Qed.

Lemma cpp_echo_file (client : nat -> string -> option string)
  (content : string) :
  (forall j c, value (Cpp.translate_with_semaphore (client j) c) = c) ->
  value (Cpp.process_file client content) = content.
Proof.
  intros Hecho. unfold Cpp.process_file.
  destruct (Re.finditer Cpp.comment_pattern content) as [|c0 cs] eqn:E;
    [done|].
  set (comments := c0 :: cs) in *. dispatch_simpl.
  unfold Cpp.tasks_of.
  rewrite (echo_tasks_values
             (fun j comment => Cpp.translate_with_semaphore (client j) comment))
    by done.
  rewrite (sub_ext _ _ (fun x => x)); [apply sub_id|].
  intros x _. unfold Cpp.replace_comment, Cpp.dict_of_zip.
  destruct (foldl _ ∅ (zip comments comments) !! x) as [v|] eqn:Ev; [|done].
  simpl. apply (foldl_assign_same ∅ comments) in Ev; [done|].
  intros k v'. by rewrite lookup_empty.
Qed.

Lemma md_echo_lines (client : nat -> string -> option string)
  (lines : list string) :
  (forall j line, value (Md.translate_line (client j) line) = line) ->
  value (Md.process_lines client lines) = lines.
Proof.
  intros Hecho. apply list_eq. intros i.
  destruct (decide (i ∈ Md.index <$> Md.segment 0 false lines)) as [Hin|Hout];
    [|by apply md_line_unchanged].
  apply list_elem_of_fmap in Hin as (inf & -> & Hin).
  pose proof (md_segment_bounds _ _ _ _ Hin) as [_ Hline].
  rewrite Nat.sub_0_r in Hline.
  apply list_elem_of_lookup in Hin as [j Hj].
  rewrite (md_line_replaced client lines j inf Hj), Hline, Hecho. f_equal.
  apply rstrip_of_rest.
Qed.

Lemma tex_echo_lines (client : nat -> string -> option string)
  (lines : list string) :
  (forall j text, value (Tex.translate_with_semaphore (client j) text) = text) ->
  value (Tex.process_lines client lines) = lines.
Proof.
  intros Hecho. apply list_eq. intros i.
  destruct (decide (i ∈ (Tex.segment 0 false lines).*1)) as [Hin|Hout];
    [|by apply tex_line_unchanged].
  apply list_elem_of_fmap in Hin as ([idx text] & -> & Hin). simpl.
  destruct (tex_segment_text _ _ _ _ Hin) as (ol & Hline & Hsame).
  simpl in Hline, Hsame. rewrite Nat.sub_0_r in Hline.
  apply list_elem_of_lookup in Hin as [j Hj].
  destruct (tex_line_replaced client lines j idx text Hj)
    as (ol' & Hline' & Hout).
  rewrite Hout, Hline, Hecho. f_equal.
  assert (ol' = ol) as -> by congruence. done.
Qed.

Lemma cpp_task_down (text : string) :
  value (Cpp.translate_with_semaphore Scenario.down text) = text.
Proof.
  unfold Cpp.translate_with_semaphore.
  destruct (negb (has_alnum text)); [done|].
  by destruct (negb (truthy (Cpp.clean text))).
Qed.

Lemma md_task_down (line : string) :
  value (Md.translate_line Scenario.down line) = line.
Proof.
  unfold Md.translate_line.
  destruct (negb (has_alnum line)); [done|].
  by destruct (negb (has_alnum (Md.line_with_placeholders line))).
Qed.

Lemma tex_task_down (text : string) :
  value (Tex.translate_with_semaphore Scenario.down text) = text.
Proof.
  unfold Tex.translate_with_semaphore.
  destruct (negb (has_alnum text)); [done|].
  by destruct (negb (truthy (strip text))).
Qed.

Lemma html_text_list_down (texts : list string) :
  value (translate_text_list Scenario.down texts) = [].
Proof.
  unfold translate_text_list. dispatch_simpl.
  induction (List.filter (fun text => truthy (strip text)) texts)
    as [|x l IH]; [done|]. exact IH.
Qed.

Lemma html_special_down (text : string) :
  value (process_special Scenario.down text) = text.
Proof.
  unfold process_special.
  destruct ((collect 0 (split_nl text)).*1) as [|c0 cs] eqn:E;
    [apply join_split_nl|].
  rewrite value_bind, html_text_list_down.
  cbn [value mret Dispatch_ret].
  rewrite zip_with_nil_r. simpl. apply join_split_nl.
Qed.

Lemma html_special_texts_echo (client : string -> option string) (n : node) :
  (forall text, value (process_special client text) = text) ->
  with_special_texts client n = with_flat_special n.
Proof.
  intros Hecho.
  induction n as [s | cls s | name attrs children IH] using node_induction;
    [done|done|].
  simpl.
  destruct (bool_decide (name ∈ SPECIAL_HANDLING_TAGS)).
  - by rewrite Hecho.
  - f_equal. by apply Forall_fmap_ext_1.
Qed.

Lemma html_for_each_echo (visit : node -> Dispatch node) (l : list node) :
  Forall (fun c => value (visit c) = c) l -> value (for_each visit l) = l.
Proof.
  induction 1 as [|c l Hc _ IH]; [done|].
  simpl. dispatch_simpl. by rewrite Hc, IH.
Qed.

Lemma html_walk_down (n : node) :
  forall parent_name,
    value (translate_element Scenario.down parent_name n) = n.
Proof.
  induction n as [s | cls s | name attrs children IH] using node_induction;
    intros parent_name; simpl.
  - destruct (truthy (strip s)); [|done].
    by destruct (negb (skipped parent_name)).
  - destruct (truthy (strip s)); [|done].
    by destruct (negb (skipped parent_name)).
  - destruct (skipped name); [done|].
    dispatch_simpl. rewrite html_for_each_echo; [done|].
    eapply Forall_impl; [exact IH|]. intros c Hc. apply Hc.
Qed.

Lemma html_first_of_echo (within : node -> option (Dispatch node))
  (l : list node) :
  Forall (fun c => forall w, within c = Some w -> value w = c) l ->
  forall w, first_of within l = Some w -> value w = l.
Proof.
  induction 1 as [|c l Hc _ IH]; intros w; simpl; [done|].
  destruct (within c) as [c'|] eqn:Ec.
  - intros [= <-]. rewrite value_fmap. by rewrite (Hc c').
  - destruct (first_of within l) as [rest'|]; [|done].
    intros [= <-]. rewrite value_fmap. by rewrite (IH rest').
Qed.

Lemma html_on_body_echo (f : node -> Dispatch node) (n : node) :
  (forall m, value (f m) = m) ->
  forall w, on_body f n = Some w -> value w = n.
Proof.
  intros Hf.
  induction n as [s | cls s | name attrs children IH] using node_induction;
    intros w; simpl; [done|done|].
  destruct (bool_decide (name = "body")); [intros [= <-]; apply Hf|].
  destruct (first_of (on_body f) children) as [children'|] eqn:E; [|done].
  intros [= <-]. rewrite value_fmap.
  by rewrite (html_first_of_echo _ _ IH children').
Qed.

(** X7.  When every call of the service fails, the C-family, the
    Markdown and the TeX driver write the text they read, character for
    character, and the HTML driver writes the tree it read with every
    special tag flattened to its text. *)
Theorem outage_leaves_documents (content : string) (soup : list node) :
  value (Cpp.process_file (fun _ => Scenario.down) content) = content
  /\ value (Md.process_file (fun _ => Scenario.down) content) = content
  /\ value (Tex.process_file (fun _ => Scenario.down) content) = content
  /\ value (process_file Scenario.down soup) = with_flat_special <$> soup.
Proof.
  split; [apply cpp_echo_file; intros; apply cpp_task_down|].
  split.
  { unfold Md.process_file. rewrite value_fmap.
    rewrite md_echo_lines by (intros; apply md_task_down).
    apply concat_readlines. }
  split.
  { unfold Tex.process_file. rewrite value_fmap.
    rewrite tex_echo_lines by (intros; apply tex_task_down).
    apply concat_readlines. }
  unfold process_file. rewrite value_bind.
  assert (Hflat : value (special_step Scenario.down soup)
                  = with_flat_special <$> soup).
  { unfold special_step. cbn [value].
    apply Forall_fmap_ext_1, Forall_forall. intros n _.
    apply html_special_texts_echo, html_special_down. }
  rewrite Hflat.
  destruct (first_of _ (with_flat_special <$> soup)) as [walked|] eqn:E;
    [|done].
  apply (html_first_of_echo _ _ (proj2 (Forall_forall _ _)
           (fun c _ => html_on_body_echo _ c
              (fun m => html_walk_down m "[document]"))) _ E).
Qed.

End Echo.

(** ** One failed call *)

Section OneFailure.
Import PyStr.

Lemma md_task_failed (client : string -> option string) (line : string) :
  client (Md.line_with_placeholders line) = None ->
  value (Md.translate_line client line) = line.
Proof.
  intros Hfail. unfold Md.translate_line.
  destruct (negb (has_alnum line)); [done|].
  destruct (negb (has_alnum (Md.line_with_placeholders line))); [done|].
  dispatch_simpl. unfold call_client. cbn [value]. by rewrite Hfail.
Qed.

Lemma tex_task_failed (client : string -> option string) (text : string) :
  client (strip text) = None ->
  value (Tex.translate_with_semaphore client text) = text.
Proof.
  intros Hfail. unfold Tex.translate_with_semaphore.
  destruct (negb (has_alnum text)); [done|].
  destruct (negb (truthy (strip text))); [done|].
  dispatch_simpl. unfold call_client. cbn [value]. by rewrite Hfail.
Qed.

(** X8.  In the Markdown driver a failed call is confined to its line:
    the line of the segment whose call fails is written as it was read,
    and every other line is written as it would be if the calls of the
    other segments were answered the same and that call had gone any
    other way. *)
Theorem md_failure_isolated (client client' : nat -> string -> option string)
  (lines : list string) (j : nat) (inf : Md.info) :
  Md.segment 0 false lines !! j = Some inf ->
  client j (Md.line_with_placeholders (Md.rstrip_eol (Md.original_line inf)))
    = None ->
  (forall j', j' <> j -> client' j' = client j') ->
  value (Md.process_lines client lines) !! Md.index inf
    = Some (Md.original_line inf)
  /\ forall i, i <> Md.index inf ->
       value (Md.process_lines client' lines) !! i
       = value (Md.process_lines client lines) !! i.
Proof.
  intros Hj Hfail Hsame. split.
  - rewrite (md_line_replaced client lines j inf Hj).
    rewrite md_task_failed by done. f_equal. apply rstrip_of_rest.
  - intros i Hi.
    destruct (decide (i ∈ Md.index <$> Md.segment 0 false lines)) as [Hin|Hout].
    + apply list_elem_of_fmap in Hin as (inf' & -> & Hin).
      apply list_elem_of_lookup in Hin as [j' Hj'].
      assert (j' <> j) by (intros ->; congruence).
      rewrite (md_line_replaced client lines j' inf' Hj').
      rewrite (md_line_replaced client' lines j' inf' Hj').
      by rewrite Hsame.
    + by rewrite !md_line_unchanged.
Qed.

Lemma md_failure_isolated_witness :
  value (Md.process_lines
           (fun j => if Nat.eqb j 1 then Scenario.down else Scenario.uppercase)
           ["one" +:+ LF; "two" +:+ LF; "three" +:+ LF]) !! 1
  = Some ("two" +:+ LF).
Proof.
  destruct (md_failure_isolated
              (fun j => if Nat.eqb j 1 then Scenario.down else Scenario.uppercase)
              (fun j => if Nat.eqb j 1 then Scenario.down else Scenario.uppercase)
              ["one" +:+ LF; "two" +:+ LF; "three" +:+ LF] 1
              (Md.Info 1 ("two" +:+ LF))) as [H _].
  - reflexivity.
  - reflexivity.
  - intros j' _. reflexivity.
  - exact H.
Defined.

(** X9.  In the TeX driver a failed call is confined to its line: the
    line of the segment whose call fails, item lines included, is written
    as it was read, and every other line is written as it would be if the
    calls of the other segments were answered the same and that call had
    gone any other way. *)
Theorem tex_failure_isolated (client client' : nat -> string -> option string)
  (lines : list string) (j idx : nat) (text : string) :
  Tex.segment 0 false lines !! j = Some (idx, text) ->
  client j (strip text) = None ->
  (forall j', j' <> j -> client' j' = client j') ->
  value (Tex.process_lines client lines) !! idx = lines !! idx
  /\ forall i, i <> idx ->
       value (Tex.process_lines client' lines) !! i
       = value (Tex.process_lines client lines) !! i.
Proof.
  intros Hj Hfail Hsame. split.
  - destruct (tex_line_replaced client lines j idx text Hj)
      as (ol & Hline & Hout).
    rewrite Hout, Hline. f_equal. rewrite tex_task_failed by done.
    apply list_elem_of_lookup_2 in Hj.
    destruct (tex_segment_text _ _ _ _ Hj) as (ol' & Hline' & Hrebuilt).
    simpl in *. rewrite Nat.sub_0_r in Hline'. congruence.
  - intros i Hi.
    destruct (decide (i ∈ (Tex.segment 0 false lines).*1)) as [Hin|Hout].
    + apply list_elem_of_fmap in Hin as ([idx' text'] & -> & Hin). simpl in *.
      apply list_elem_of_lookup in Hin as [j' Hj'].
      assert (j' <> j) by (intros ->; congruence).
      destruct (tex_line_replaced client lines j' idx' text' Hj')
        as (ol & Hline & Hout).
      destruct (tex_line_replaced client' lines j' idx' text' Hj')
        as (ol' & Hline' & Hout').
      rewrite Hout, Hout', Hsame by done. congruence.
    + by rewrite !tex_line_unchanged.
Qed.

Lemma tex_failure_isolated_witness :
  value (Tex.process_lines
           (fun j => if Nat.eqb j 1 then Scenario.down else Scenario.uppercase)
           ["one" +:+ LF; "  \item  two" +:+ LF; "three" +:+ LF]) !! 1
  = Some ("  \item  two" +:+ LF).
Proof.
  destruct (tex_failure_isolated
              (fun j => if Nat.eqb j 1 then Scenario.down else Scenario.uppercase)
              (fun j => if Nat.eqb j 1 then Scenario.down else Scenario.uppercase)
              ["one" +:+ LF; "  \item  two" +:+ LF; "three" +:+ LF] 1 1
              ("two" +:+ LF)) as [H _].
  - reflexivity.
  - reflexivity.
  - intros j' _. reflexivity.
  - exact H.
Defined.

End OneFailure.

(** ** Which lines become segments *)

Section SegmentLines.
Import PyStr.

Lemma md_inside_zero (lines : list string) : Md.inside_code_block lines 0 = false.
Proof. done. Qed.

Lemma md_inside_succ (line : string) (rest : list string) (k : nat) :
  Md.inside_code_block (line :: rest) (S k)
  = xorb (Md.is_fence line) (Md.inside_code_block rest k).
Proof.
  unfold Md.inside_code_block. rewrite md_fences_before_cons.
  destruct (Md.is_fence line); simpl.
  - rewrite Nat.odd_succ, <- Nat.negb_odd.
    by destruct (Nat.odd (Md.fences_before rest k)).
  - by destruct (Nat.odd (Md.fences_before rest k)).
Qed.

Lemma md_segment_iff (lines : list string) (i : nat) (b : bool)
  (idx : nat) (line : string) :
  Md.Info idx line ∈ Md.segment i b lines
  <-> exists k,
        idx = i + k
        /\ lines !! k = Some line
        /\ Md.is_fence line = false
        /\ xorb b (Md.inside_code_block lines k) = false
        /\ truthy (Md.rstrip_eol line) = true.
Proof.
  revert i b; induction lines as [|l rest IH]; intros i b.
  - simpl. split; [by intros H%elem_of_nil | by intros (k & _ & H & _)].
  - assert (Hshift : forall b',
              xorb b' (Md.is_fence l) = b ->
              Md.Info idx line ∈ Md.segment (S i) b' rest
              <-> exists k,
                    idx = i + S k
                    /\ (l :: rest) !! S k = Some line
                    /\ Md.is_fence line = false
                    /\ xorb b (Md.inside_code_block (l :: rest) (S k)) = false
                    /\ truthy (Md.rstrip_eol line) = true).
    { intros b' Hb'. rewrite IH. split; intros (k & -> & Hl & Hf & Hx & Ht);
        exists k; (split; [lia|]); (split; [done|]); (split; [done|]);
        (split; [|done]); rewrite md_inside_succ in *; subst b;
        by destruct b', (Md.is_fence l), (Md.inside_code_block rest k). }
    assert (Hhead : forall P : nat -> Prop,
              (exists k, P k) <-> P 0 \/ exists k, P (S k)).
    { intros P. split.
      - intros [[|k] H]; eauto.
      - intros [H | [k H]]; eauto. }
    rewrite Hhead. simpl Md.segment.
    destruct (Md.is_fence l) eqn:Ef.
    + rewrite (Hshift (negb b)) by (by destruct b). split; [by right|].
      intros [(_ & [= ->] & Hf & _) | H]; [congruence | done].
    + destruct b.
      * rewrite (Hshift true) by done. split; [by right|].
        intros [(_ & _ & _ & Hx & _) | H]; [done | done].
      * destruct (truthy (Md.rstrip_eol l)) eqn:Et; simpl.
        -- rewrite elem_of_cons, (Hshift false) by done.
           split.
           ++ intros [[= -> ->] | H]; [left | by right].
              rewrite Nat.add_0_r. by repeat split.
           ++ intros [(-> & [= ->] & _) | H]; [left | by right].
              by rewrite Nat.add_0_r.
        -- rewrite (Hshift false) by done. split; [by right|].
           intros [(_ & [= ->] & _ & _ & Ht) | H]; [congruence | done].
Qed.

(** X10.  The segments of a Markdown file are exactly its lines that are
    no fence lines, lie behind an even number of fence lines, and are not
    empty once their line terminators are taken off: each such line gets
    a task, with its own index, and no other line does. *)
Theorem md_segments_exactly (lines : list string) (idx : nat) (line : string) :
  Md.Info idx line ∈ Md.segment 0 false lines
  <-> lines !! idx = Some line
      /\ Md.is_fence line = false
      /\ Md.inside_code_block lines idx = false
      /\ truthy (Md.rstrip_eol line) = true.
Proof.
  rewrite md_segment_iff. split.
  - intros (k & -> & H). exact H.
  - intros H. exists idx. split; [done | exact H].
Qed.

Lemma md_segments_exactly_witness :
  Md.Info 4 ("outro" +:+ LF)
  ∈ Md.segment 0 false
      ["intro" +:+ LF; "```" +:+ LF; "x = 1" +:+ LF; "```" +:+ LF;
       "outro" +:+ LF; LF].
Proof.
  apply (md_segments_exactly
           ["intro" +:+ LF; "```" +:+ LF; "x = 1" +:+ LF; "```" +:+ LF;
            "outro" +:+ LF; LF] 4 ("outro" +:+ LF)).
  repeat split; reflexivity.
Defined.

Lemma rstrip_of_split (p : ascii -> bool) (s : string) :
  Md.forallb p (drop (String.length (rstrip_of p s)) s) = true.
Proof.
  induction s as [|c s IH]; simpl; [done|].
  destruct (rstrip_of p s) as [|d r] eqn:E.
  - simpl in IH. destruct (p c) eqn:Ep; simpl; [by rewrite Ep, IH | done].
  - done.
Qed.

(** X11.  The Markdown driver splits a line into its content and its
    ending without loss: the ending holds line feeds and carriage returns
    only, the content followed by the ending is the line, and the content
    does not end with a line feed or a carriage return. *)
Theorem md_line_ending_split (i : nat) (line : string) :
  Md.rstrip_eol line +:+ Md.original_ending (Md.Info i line) = line
  /\ Md.forallb Md.is_eol (Md.original_ending (Md.Info i line)) = true
  /\ Md.rstrip_eol (Md.rstrip_eol line) = Md.rstrip_eol line.
Proof.
  unfold Md.original_ending, Md.rstrip_eol. simpl.
  split; [apply rstrip_of_rest|].
  split; [apply rstrip_of_split | apply rstrip_of_idemp].
Qed.

Lemma tex_segment_source (lines : list string) (i : nat) (b : bool)
  (p : nat * string) :
  p ∈ Tex.segment i b lines ->
  exists k line,
    p.1 = i + k /\ lines !! k = Some line
    /\ match Tex.item_pattern line with
       | Some n => truthy (strip (drop n line)) = true
       | None => mem "\" line = false /\ truthy (strip line) = true
       end.
Proof.
  revert i b; induction lines as [|l rest IH]; intros i b Hin; simpl in *.
  - by apply elem_of_nil in Hin.
  - assert (Hrest : forall b', p ∈ Tex.segment (S i) b' rest ->
              exists k line,
                p.1 = i + k /\ (l :: rest) !! k = Some line
                /\ match Tex.item_pattern line with
                   | Some n => truthy (strip (drop n line)) = true
                   | None => mem "\" line = false /\ truthy (strip line) = true
                   end).
    { intros b' H. destruct (IH _ _ H) as (k & line & Hk & Hl & Hm).
      exists (S k), line. split; [lia | done]. }
    assert (Hhere : match Tex.item_pattern l with
                    | Some n => truthy (strip (drop n l)) = true
                    | None => mem "\" l = false /\ truthy (strip l) = true
                    end ->
                    p.1 = i ->
                    exists k line,
                      p.1 = i + k /\ (l :: rest) !! k = Some line
                      /\ match Tex.item_pattern line with
                         | Some n => truthy (strip (drop n line)) = true
                         | None =>
                             mem "\" line = false /\ truthy (strip line) = true
                         end).
    { intros Hm Hp. exists 0, l. split; [lia | done]. }
    destruct (Tex.item_pattern l) as [n|] eqn:Ei.
    + destruct (truthy (strip (drop n l))) eqn:Et; [|by eapply Hrest].
      apply elem_of_cons in Hin as [->|Hin]; [by apply Hhere | by eapply Hrest].
    + destruct (Tex.begin_pattern l); [by eapply Hrest|].
      destruct (Tex.end_pattern l); [by eapply Hrest|].
      destruct (mem "\" l) eqn:Em;
        [rewrite orb_true_r in Hin; by eapply Hrest|].
      rewrite orb_false_r in Hin.
      destruct b; [by eapply Hrest|].
      destruct (truthy (strip l)) eqn:Et; simpl in Hin; [|by eapply Hrest].
      apply elem_of_cons in Hin as [->|Hin]; [by apply Hhere | by eapply Hrest].
Qed.

(** X12.  In the TeX driver a line that is no item line and holds a
    backslash or is blank, and an item line whose remainder is blank, is
    protected: it is no segment, whatever the block flag is, and it is
    written as it was read. *)
Theorem tex_protected_lines (client : nat -> string -> option string)
  (lines : list string) (i : nat) (line : string) :
  lines !! i = Some line ->
  match Tex.item_pattern line with
  | Some n => truthy (strip (drop n line)) = false
  | None => mem "\" line = true \/ truthy (strip line) = false
  end ->
  (i ∉ (Tex.segment 0 false lines).*1)
  /\ value (Tex.process_lines client lines) !! i = Some line.
Proof.
  intros Hline Hprot.
  assert (Hout : i ∉ (Tex.segment 0 false lines).*1).
  { intros Hin. apply list_elem_of_fmap in Hin as (p & -> & Hin).
    destruct (tex_segment_source _ _ _ _ Hin) as (k & l & Hk & Hl & Hm).
    simpl in Hk. subst k.
    assert (l = line) as -> by congruence.
    destruct (Tex.item_pattern line); [congruence|].
    destruct Hm as [Hb Ht]. destruct Hprot; congruence. }
  split; [done|]. by rewrite tex_line_unchanged.
Qed.

Lemma tex_protected_lines_witness :
  value (Tex.process_lines (fun _ => Scenario.uppercase)
           ["title" +:+ LF; "\section{Intro}" +:+ LF; "\item " +:+ LF]) !! 1
  = Some ("\section{Intro}" +:+ LF).
Proof.
  destruct (tex_protected_lines (fun _ => Scenario.uppercase)
              ["title" +:+ LF; "\section{Intro}" +:+ LF; "\item " +:+ LF] 1
              ("\section{Intro}" +:+ LF)) as [_ H].
  - reflexivity.
  - left. reflexivity.
  - exact H.
Defined.

End SegmentLines.

(** ** What the HTML driver leaves alone *)

Section HtmlShape.
Import PyStr Html HtmlView.

Lemma shape_special_texts (client : string -> option string) (n : node) :
  shape (with_special_texts client n) = shape (with_flat_special n).
Proof.
  induction n as [s | cls s | name attrs children IH] using node_induction;
    [done|done|].
  simpl. destruct (bool_decide (name ∈ SPECIAL_HANDLING_TAGS)); [done|].
  simpl. f_equal. rewrite <- !list_fmap_compose.
  by apply Forall_fmap_ext_1.
Qed.

Lemma shape_for_each (visit : node -> Dispatch node) (l : list node) :
  Forall (fun c => shape (value (visit c)) = shape c) l ->
  shape <$> value (for_each visit l) = shape <$> l.
Proof.
  induction 1 as [|c l Hc _ IH]; [done|].
  cbn [for_each]. dispatch_simpl. rewrite !fmap_cons. by rewrite Hc, IH.
Qed.

Lemma shape_walk (client : string -> option string) (n : node) :
  forall parent_name,
    shape (value (translate_element client parent_name n)) = shape n.
Proof.
  induction n as [s | cls s | name attrs children IH] using node_induction;
    intros parent_name; simpl.
  - destruct (truthy (strip s)); [|done].
    destruct (negb (skipped parent_name)); [|done].
    dispatch_simpl. unfold translate_with_semaphore, call_client. cbn [value].
    destruct (client s) as [t|]; [|done]. by destruct (truthy t).
  - destruct (truthy (strip s)); [|done].
    destruct (negb (skipped parent_name)); [|done].
    dispatch_simpl. unfold translate_with_semaphore, call_client. cbn [value].
    destruct (client s) as [t|]; [|done]. by destruct (truthy t).
  - destruct (skipped name); [done|].
    dispatch_simpl. simpl. f_equal. apply shape_for_each.
    eapply Forall_impl; [exact IH|]. intros c Hc. apply Hc.
Qed.

Lemma shape_first_of (within : node -> option (Dispatch node))
  (l : list node) :
  Forall (fun c => forall w, within c = Some w -> shape (value w) = shape c) l ->
  forall w, first_of within l = Some w -> shape <$> value w = shape <$> l.
Proof.
  induction 1 as [|c l Hc _ IH]; intros w; simpl; [done|].
  destruct (within c) as [c'|] eqn:Ec.
  - intros [= <-]. rewrite value_fmap, !fmap_cons. by rewrite (Hc c').
  - destruct (first_of within l) as [rest'|]; [|done].
    intros [= <-]. rewrite value_fmap, !fmap_cons. by rewrite (IH rest').
Qed.

Lemma shape_on_body (f : node -> Dispatch node) (n : node) :
  (forall m, shape (value (f m)) = shape m) ->
  forall w, on_body f n = Some w -> shape (value w) = shape n.
Proof.
  intros Hf.
  induction n as [s | cls s | name attrs children IH] using node_induction;
    intros w; simpl; [done|done|].
  destruct (bool_decide (name = "body")); [intros [= <-]; apply Hf|].
  destruct (first_of (on_body f) children) as [children'|] eqn:E; [|done].
  intros [= <-]. rewrite value_fmap. simpl. f_equal.
  by apply (shape_first_of _ _ IH children').
Qed.

(** X13.  Whatever the service answers, the HTML driver changes strings
    only: the document written has the tags, the attributes and the
    places of the nodes of the document read in which every special tag
    is flattened to one text node.  The walk itself changes no tag, no
    attribute and no place of a node.  The class of a string is not
    kept: the walk treats a comment, a CDATA section, a declaration and
    every other string like a plain text, and the answer of the service
    takes its place as a plain text node. *)
Theorem html_output_shape (client : string -> option string)
  (soup : list node) :
  shape <$> value (process_file client soup)
    = shape <$> (with_flat_special <$> soup)
  /\ (forall parent_name n,
       shape (value (translate_element client parent_name n)) = shape n)
  /\ (forall parent_name cls s t,
       truthy (strip s) = true ->
       skipped parent_name = false ->
       client s = Some t ->
       truthy t = true ->
       translate_element client parent_name (Str cls s) = Sent (Text t) [s]).
Proof.
  split; [|split; [intros; apply shape_walk|]];
    [|intros parent_name cls s t Hs Hp Hc Ht; cbn [translate_element];
      rewrite Hs, Hp; unfold translate_with_semaphore, call_client;
      rewrite Hc; cbn; by rewrite Ht].
  unfold process_file. rewrite value_bind.
  assert (Hstep : shape <$> value (special_step client soup)
                  = shape <$> (with_flat_special <$> soup)).
  { unfold special_step. cbn [value]. rewrite <- !list_fmap_compose.
    apply Forall_fmap_ext_1, Forall_forall. intros n _.
    apply shape_special_texts. }
  destruct (first_of _ (value (special_step client soup))) as [walked|] eqn:E;
    [|done].
  rewrite <- Hstep.
  apply (shape_first_of _ _ (proj2 (Forall_forall _ _)
           (fun c _ => shape_on_body _ c
              (fun m => shape_walk client m "[document]"))) _ E).
Qed.

(** *** The lines of a special tag *)


Lemma foldl_assign_elem {V : Type} (d : gmap string V) (l : list (string * V))
  (k : string) (v : V) :
  foldl Store.assign d l !! k = Some v -> d !! k = Some v \/ (k, v) ∈ l.
Proof.
  revert d; induction l as [|[k0 v0] l IH]; intros d; simpl; [by left|].
  intros H. apply IH in H as [H|H]; [|right; by right].
  unfold Store.assign in H; simpl in H.
  destruct (decide (k0 = k)) as [->|Hne].
  - rewrite lookup_insert_eq in H. injection H as ->. right. by left.
  - rewrite lookup_insert_ne in H by done. by left.
Qed.

Lemma html_collect_source (lines : list string) (i0 : nat) (c : string)
  (i : nat) :
  (c, i) ∈ collect i0 lines ->
  exists line,
    i0 <= i /\ lines !! (i - i0) = Some line /\ comment_text_of line = Some c.
Proof.
  revert i0; induction lines as [|l rest IH]; intros i0 Hin; simpl in *.
  - by apply elem_of_nil in Hin.
  - assert (Hrest : (c, i) ∈ collect (S i0) rest ->
              exists line,
                i0 <= i /\ (l :: rest) !! (i - i0) = Some line
                /\ comment_text_of line = Some c).
    { intros H. destruct (IH _ H) as (line & Hle & Hl & Hc).
      exists line. split; [lia|]. split; [|done].
      replace (i - i0) with (S (i - S i0)) by lia. done. }
    destruct (comment_text_of l) as [c'|] eqn:Ec; [|by apply Hrest].
    apply elem_of_cons in Hin as [[= -> ->]|Hin]; [|by apply Hrest].
    exists l. rewrite Nat.sub_diag. by repeat split.
Qed.

Lemma html_put_back_other (translation_map : gmap string nat)
  (items : list (string * string)) (lines : list string) (i : nat) :
  (forall k v, translation_map !! k = Some v -> v <> i) ->
  foldl (put_back translation_map) lines items !! i = lines !! i
  /\ length (foldl (put_back translation_map) lines items) = length lines.
Proof.
  intros Hmap. revert lines; induction items as [|p items IH]; intros lines;
    simpl; [done|].
  destruct (IH (put_back translation_map lines p)) as [IH1 IH2].
  rewrite IH1, IH2. unfold put_back.
  destruct (translation_map !! p.1) as [line_index|] eqn:Em; [|done].
  destruct (lines !! line_index) as [l|]; [|done].
  split; [|apply length_insert].
  apply list_lookup_insert_ne. by apply (Hmap p.1).
Qed.










(** A comment under the body, answered in upper case, is written as a
    plain text. *)
Lemma html_output_shape_witness :
  translate_element Scenario.uppercase "body" (Str Comment " note ")
  = Sent (Text " NOTE ") [" note "].
Proof.
  apply (proj2 (proj2 (html_output_shape Scenario.uppercase [])));
    reflexivity.
Defined.


End HtmlShape.

(** ** The indentation of a comment line *)

Section CommentIndent.
Import PyStr Html.

Lemma prefix_nil (s : string) : String.prefix "" s = true.
Proof. by destruct s. Qed.

Lemma prefix_append (p a t : string) :
  String.prefix p a = true -> String.prefix p (a +:+ t) = true.
Proof.
  revert a; induction p as [|x p IH]; intros a; [intros _; apply prefix_nil|].
  destruct a as [|y a]; simpl; [done|].
  destruct (ascii_dec x y); [apply IH | done].
Qed.

Lemma startswith_rstrip (p s : string) (q : ascii -> bool) :
  startswith p (rstrip_of q s) = true -> startswith p s = true.
Proof.
  unfold startswith. intros H.
  destruct (rstrip_of_prefix q s) as [t Ht]. rewrite Ht.
  by apply prefix_append.
Qed.

(** In a text that starts with white space and two slashes, the first
    two slashes are found behind the white space. *)
Lemma index_slashes_lstrip (l : string) :
  startswith "//" (lstrip l) = true ->
  String.index 0 "//" l
  = Some (String.length l - String.length (lstrip l)).
Proof.
  induction l as [|c r IH]; [done|].
  change (String.index 0 "//" (String c r))
    with (if String.prefix "//" (String c r) then Some 0
          else match String.index 0 "//" r with
               | Some n => Some (S n)
               | None => None
               end).
  unfold lstrip in *. simpl lstrip_of.
  destruct (isspace c) eqn:Es.
  - intros H. rewrite (IH H).
    assert (String.prefix "//" (String c r) = false) as ->.
    { change (String.prefix "//" (String c r))
        with (match ascii_dec "/" c with
              | left _ => String.prefix "/" r
              | right _ => false
              end).
      destruct (ascii_dec "/" c) as [<-|]; [|done].
      vm_compute in Es. discriminate Es. }
    pose proof (lstrip_of_length isspace r). f_equal. simpl. lia.
  - unfold startswith. intros ->. f_equal. simpl. lia.
Qed.

Lemma html_comment_indent_eq (line c : string) :
  comment_text_of line = Some c ->
  slice_to line (find "//" line) = indent_of line.
Proof.
  unfold comment_text_of. intros H.
  destruct (startswith "//" (strip line)) eqn:Es; [|done].
  apply startswith_rstrip in Es.
  unfold find. rewrite (index_slashes_lstrip line Es).
  rewrite indent_of_take. unfold slice_to.
  destruct (Z.ltb_spec (Z.of_nat (String.length line
                                  - String.length (lstrip line))) 0);
    [lia|].
  by rewrite Nat2Z.id.
Qed.

(** X15.  For a line of a special tag that has a comment text, the
    indentation that the HTML driver puts in front of the rewritten
    comment, the text before the first two slashes, is the leading white
    space of the line and nothing else. *)
Theorem html_comment_indent (line c : string) :
  comment_text_of line = Some c ->
  slice_to line (find "//" line) = indent_of line
  /\ Md.forallb isspace (indent_of line) = true
  /\ startswith "//" (lstrip line) = true.
Proof.
  intros H. split; [by eapply html_comment_indent_eq|].
  split; [rewrite indent_of_take; apply forallb_take_lstrip|].
  unfold comment_text_of in H.
  destruct (startswith "//" (strip line)) eqn:Es; [|done].
  by apply startswith_rstrip in Es.
Qed.

Lemma html_comment_indent_witness :
  slice_to "    // note" (find "//" "    // note") = indent_of "    // note".
Proof.
  destruct (html_comment_indent "    // note" "note") as [H _].
  - reflexivity.
  - exact H.
Defined.

End CommentIndent.

(** ** Progress of a batch *)

Section Progress.
Import Async.

Lemma filter_witness {A : Type} (f : A -> bool) (l : list A) :
  0 < length (List.filter f l) -> exists i x, l !! i = Some x /\ f x = true.
Proof.
  induction l as [|a l IH]; simpl; [lia|].
  destruct (f a) eqn:Ef.
  - intros _. by exists 0, a.
  - intros H. destruct (IH H) as (i & x & Hi & Hx). by exists (S i), x.
Qed.

(** A task that has steps left takes one, unless it waits for a permit
    and none is free. *)
Lemma task_can_step (p : pool) (i : nat) (t : task) :
  task_ok t ->
  tasks p !! i = Some t ->
  code t <> [] ->
  (exists k, code t = Acquire :: k /\ permits p = 0)
  \/ exists q, step Batch.driver_task p q
               /\ length (tasks q) = length (tasks p).
Proof.
  destruct t as [c [|]]; intros [_ Hcall] Hi Hcode; simpl in *.
  - destruct (Hcall eq_refl) as [k ->]. right.
    eexists. split; [by eapply step_return|]. simpl. apply length_insert.
  - destruct c as [|[] k]; [done| | | |].
    + destruct (permits p) as [|n] eqn:Hp; [left; by exists k|].
      right. eexists. split; [by eapply step_acquire|].
      simpl. apply length_insert.
    + right. eexists. split; [by eapply step_release|].
      simpl. apply length_insert.
    + right. eexists. split; [by eapply step_sleep|].
      simpl. apply length_insert.
    + right. eexists. split; [by eapply step_call|].
      simpl. apply length_insert.
Qed.

(** X16.  A batch never gets stuck on the semaphore: as long as the
    limit is positive and some task has steps left, some task of the pool
    can take a step.  A task that waits for a permit while none is free
    waits for a task inside the block, and that task can go on: its next
    step is the delay, the call, the return of the call or the exit. *)
Theorem batch_never_stuck (limit : nat) (p : pool) (i : nat) (t : task) :
  reachable Batch.driver_task limit p ->
  0 < limit ->
  tasks p !! i = Some t ->
  code t <> [] ->
  exists q, step Batch.driver_task p q
            /\ length (tasks q) = length (tasks p).
Proof.
  intros Hreach Hlimit Hi Hcode.
  destruct (pool_ok_reachable _ _ Hreach) as [Hsum Hall].
  pose proof (Forall_lookup_1 _ _ _ _ Hall Hi) as Hok.
  destruct (task_can_step p i t Hok Hi Hcode) as [(k & Hk & Hp) | Hstep];
    [|done].
  assert (Hheld : 0 < held p) by lia.
  apply filter_witness in Hheld as (i' & t' & Hi' & Hh).
  pose proof (Forall_lookup_1 _ _ _ _ Hall Hi') as Hok'.
  destruct (task_can_step p i' t' Hok' Hi') as [(k' & Hk' & _) | Hstep];
    [| |done].
  - intros Hnil. by rewrite Hnil in Hh.
  - by rewrite Hk' in Hh.
Qed.

Lemma batch_never_stuck_witness :
  exists q,
    step Batch.driver_task
      (Pool 0 [Task [Translate; Release] true; Task (Cpp.task_path "// b") false])
      q
    /\ length (tasks q) = 2.
Proof.
  apply (batch_never_stuck 1
           (Pool 0 [Task [Translate; Release] true;
                    Task (Cpp.task_path "// b") false])
           1 (Task (Cpp.task_path "// b") false)).
  - unfold reachable.
    eapply rtc_l.
    { apply (step_spawn _ (initial 1) (Cpp.task_path "// a")).
      exists "// a". right; left; reflexivity. }
    eapply rtc_l.
    { apply (step_spawn _ _ (Cpp.task_path "// b")).
      exists "// b". right; left; reflexivity. }
    eapply rtc_l.
    { apply (step_acquire _ _ 0 [Sleep; Translate; Release] 0); reflexivity. }
    eapply rtc_l.
    { apply (step_sleep _ _ 0 [Translate; Release]); reflexivity. }
    eapply rtc_l.
    { apply (step_call _ _ 0 [Release]); reflexivity. }
    apply rtc_refl.
  - lia.
  - reflexivity.
  - discriminate.
Defined.

Lemma filter_none {A : Type} (f : A -> bool) (l : list A) :
  Forall (fun x => f x = false) l -> List.filter f l = [].
Proof.
  induction 1 as [|x l Hx _ IH]; simpl; [done|]. by rewrite Hx.
Qed.

(** X17.  When every task of a batch has run to its end, all permits are
    back: the counter of the semaphore equals the limit again, on every
    path, the ones through a failed call included. *)
Theorem permits_return (limit : nat) (p : pool) :
  reachable Batch.driver_task limit p ->
  Forall (fun t => code t = []) (tasks p) ->
  permits p = limit /\ outstanding p = 0.
Proof.
  intros Hreach Hdone.
  destruct (pool_ok_reachable _ _ Hreach) as [Hsum Hall].
  assert (Hheld : held p = 0).
  { unfold held. rewrite filter_none; [done|].
    eapply Forall_impl; [exact Hdone|]. by intros t ->. }
  split; [lia|].
  unfold outstanding. rewrite filter_none; [done|].
  apply Forall_forall. intros t Ht.
  rewrite Forall_forall in Hall, Hdone.
  destruct (Hall t Ht) as [_ Hcall]. specialize (Hdone t Ht).
  destruct (in_call t); [|done].
  destruct (Hcall eq_refl) as [k Hk]. congruence.
Qed.

Lemma permits_return_witness :
  permits (Pool 1 [Task [] false]) = 1
  /\ outstanding (Pool 1 [Task [] false]) = 0.
Proof.
  apply (permits_return 1 (Pool 1 [Task [] false])).
  - unfold reachable.
    eapply rtc_l.
    { apply (step_spawn _ (initial 1) (Html.task_path "hi")).
      exists "hi". left; reflexivity. }
    eapply rtc_l.
    { apply (step_acquire _ _ 0 [Translate; Release] 0); reflexivity. }
    eapply rtc_l.
    { apply (step_call _ _ 0 [Release]); reflexivity. }
    eapply rtc_l.
    { apply (step_return _ _ 0 [Release]); reflexivity. }
    eapply rtc_l.
    { apply (step_release _ _ 0 []); reflexivity. }
    apply rtc_refl.
  - repeat constructor.
Defined.

End Progress.

(** ** The comment lines of a special tag *)

Section SpecialTag.
Import PyStr Html HtmlView.

Lemma html_collect_complete (lines : list string) (i0 k : nat)
  (line c : string) :
  lines !! k = Some line ->
  comment_text_of line = Some c ->
  (c, i0 + k) ∈ collect i0 lines.
Proof.
  revert i0 k; induction lines as [|l rest IH]; intros i0 [|k] Hl Hc;
    simpl in *; try done.
  - injection Hl as ->. rewrite Hc, Nat.add_0_r. by left.
  - replace (i0 + S k) with (S i0 + k) by lia.
    destruct (comment_text_of l); [right|]; by apply IH.
Qed.

Lemma html_collect_increasing (lines : list string) (i0 j1 j2 : nat)
  (p1 p2 : string * nat) :
  collect i0 lines !! j1 = Some p1 ->
  collect i0 lines !! j2 = Some p2 ->
  j1 < j2 ->
  p1.2 < p2.2.
Proof.
  revert i0 j1 j2; induction lines as [|l rest IH]; intros i0 j1 j2 H1 H2 Hlt;
    simpl in *; [done|].
  destruct (comment_text_of l); [|by eapply IH].
  destruct j2 as [|j2]; [lia|]. simpl in H2.
  destruct j1 as [|j1]; simpl in H1.
  - injection H1 as <-. simpl.
    apply list_elem_of_lookup_2 in H2. destruct p2 as [c2 i2].
    apply html_collect_source in H2 as (_ & Hle & _). simpl. lia.
  - eapply IH; [done | done | lia].
Qed.

Lemma html_comment_text_stripped (line c : string) :
  comment_text_of line = Some c -> truthy (strip c) = true.
Proof.
  unfold comment_text_of.
  destruct (startswith "//" (strip line)); [|done].
  destruct (truthy (strip (lstrip_of _ (strip line)))) eqn:Et; [|done].
  intros [= <-]. by rewrite strip_idemp.
Qed.

Lemma filter_all {A : Type} (f : A -> bool) (l : list A) :
  Forall (fun x => f x = true) l -> List.filter f l = l.
Proof.
  induction 1 as [|x l Hx _ IH]; simpl; [done|]. by rewrite Hx, IH.
Qed.

Lemma html_collect_texts_stripped (lines : list string) (i0 : nat) :
  Forall (fun c => truthy (strip c) = true) (collect i0 lines).*1.
Proof.
  apply Forall_forall. intros c Hc.
  apply list_elem_of_fmap in Hc as ([c' i] & -> & Hin).
  apply html_collect_source in Hin as (line & _ & _ & Hc).
  by eapply html_comment_text_stripped.
Qed.

(** The results that are left when the failed calls are filtered out. *)
Lemma html_text_list_value (client : string -> option string)
  (texts : list string) :
  Forall (fun c => truthy (strip c) = true) texts ->
  value (translate_text_list client texts) = omap client texts.
Proof.
  intros Hall. unfold translate_text_list. dispatch_simpl.
  rewrite filter_all by done. clear Hall.
  induction texts as [|x l IH]; [done|].
  rewrite !fmap_cons.
  change (value (translate_with_semaphore client x)) with (client x).
  simpl. unfold omap in IH. destruct (client x); by rewrite IH.
Qed.

Lemma omap_all_some (client : string -> option string) (texts : list string) :
  Forall (fun c => is_Some (client c)) texts ->
  omap client texts = (fun c => default "" (client c)) <$> texts.
Proof.
  induction 1 as [|x l [t Hx] _ IH]; [done|].
  simpl. rewrite Hx. simpl. unfold omap in IH. by rewrite IH.
Qed.

(** While the lines to be written still are the lines of the tag, the
    loop over the pairs is a sequence of updates by index. *)
Lemma html_put_back_puts (translation_map : gmap string nat)
  (lines : list string) (items : list (string * string)) :
  forall cur,
    Forall (fun p => exists i l,
                translation_map !! p.1 = Some i
                /\ lines !! i = Some l /\ cur !! i = Some l) items ->
    NoDup (target translation_map <$> items) ->
    foldl (put_back translation_map) cur items
    = foldl (Store.put (target translation_map)
               (fun p => rewritten
                           (default "" (lines !! target translation_map p))
                           p.2))
        cur items.
Proof.
  induction items as [|p items IH]; intros cur Hall Hnd; [done|].
  apply Forall_cons in Hall as [(i & l & Hm & Hl & Hc) Hall].
  rewrite fmap_cons in Hnd. apply NoDup_cons in Hnd as [Hfresh Hnd].
  simpl.
  assert (Hstep : put_back translation_map cur p
                  = Store.put (target translation_map)
                      (fun p => rewritten
                                  (default "" (lines !! target translation_map p))
                                  p.2) cur p).
  { unfold put_back, Store.put, target. rewrite Hm. simpl.
    by rewrite Hc, Hl. }
  rewrite Hstep. apply IH; [|done].
  rewrite Forall_forall in Hall. apply Forall_forall.
  intros q Hq. destruct (Hall q Hq) as (i' & l' & Hm' & Hl' & Hc').
  exists i', l'. split; [done|]. split; [done|].
  unfold Store.put. rewrite list_lookup_insert_ne; [done|].
  intros Heq. apply Hfresh. apply list_elem_of_fmap.
  exists q. split; [|done]. unfold target in *. by rewrite Hm' in *.
Qed.

Lemma html_map_lookup (lines : list string) (j : nat) (c : string) (i : nat) :
  NoDup (collect 0 lines).*1 ->
  collect 0 lines !! j = Some (c, i) ->
  foldl Store.assign (∅ : gmap string nat) (collect 0 lines) !! c = Some i.
Proof.
  intros Hnd Hj. apply (foldl_assign_last ∅ _ c j i Hj).
  intros j' v' Hlt Hj'.
  assert (j = j'); [|lia].
  eapply (NoDup_lookup _ _ _ c Hnd); rewrite list_lookup_fmap.
  - by rewrite Hj.
  - by rewrite Hj'.
Qed.

(** X18.  When the comment texts of a special tag are pairwise different
    and the service answers each of them, every comment line of the tag
    becomes its leading white space, two slashes, a space and the
    translation of its comment text. *)
Theorem html_special_translates_comments (client : string -> option string)
  (text : string) (i : nat) (line c t : string) :
  NoDup (collect 0 (split_nl text)).*1 ->
  Forall (fun c' => is_Some (client c')) (collect 0 (split_nl text)).*1 ->
  split_nl text !! i = Some line ->
  comment_text_of line = Some c ->
  client c = Some t ->
  special_lines client text !! i = Some (indent_of line +:+ "// " +:+ t).
Proof.
  intros Hnd Hsome Hline Hc Ht.
  unfold special_lines.
  set (lines := split_nl text) in *.
  set (found := collect 0 lines) in *.
  change (foldl (fun d p => <[p.1 := p.2]> d) ∅ found)
    with (foldl Store.assign (∅ : gmap string nat) found).
  set (translation_map := foldl Store.assign (∅ : gmap string nat) found).
  rewrite filter_all by apply html_collect_texts_stripped.
  rewrite html_text_list_value by apply html_collect_texts_stripped.
  rewrite omap_all_some by done.
  set (items := zip found.*1 ((fun c => default "" (client c)) <$> found.*1)).
  assert (Hitem : forall j c' i',
            found !! j = Some (c', i') ->
            items !! j = Some (c', default "" (client c'))
            /\ translation_map !! c' = Some i'
            /\ exists l, lines !! i' = Some l /\ comment_text_of l = Some c').
  { intros j c' i' Hj. split; [|split].
    - unfold items. rewrite lookup_zip_with, !list_lookup_fmap, Hj. done.
    - by apply (html_map_lookup lines j).
    - apply list_elem_of_lookup_2, html_collect_source in Hj
        as (l & _ & Hl & Hcl).
      rewrite Nat.sub_0_r in Hl. by exists l. }
  assert (Hback : forall j p, items !! j = Some p ->
                    exists i', found !! j = Some (p.1, i')).
  { intros j p. unfold items.
    rewrite lookup_zip_with, !list_lookup_fmap.
    destruct (found !! j) as [[c' i']|]; simpl; [|done].
    intros [= <-]. by exists i'. }
  assert (Htargets : target translation_map <$> items = found.*2).
  { apply list_eq. intros j. rewrite !list_lookup_fmap.
    destruct (found !! j) as [[c' i']|] eqn:Ej; simpl.
    - destruct (Hitem j c' i' Ej) as (-> & Hm & _). simpl.
      unfold target. simpl. by rewrite Hm.
    - destruct (items !! j) as [p|] eqn:Ep; [|done].
      destruct (Hback j p Ep) as [i' Hi']. congruence. }
  assert (Hnd2 : NoDup (target translation_map <$> items)).
  { rewrite Htargets. apply NoDup_alt. intros j1 j2 x.
    rewrite !list_lookup_fmap.
    destruct (found !! j1) as [p1|] eqn:E1; [|done].
    destruct (found !! j2) as [p2|] eqn:E2; [|done].
    simpl. intros [= <-] [= Heq].
    destruct (Nat.lt_trichotomy j1 j2) as [Hlt | [-> | Hlt]]; [|done|].
    - pose proof (html_collect_increasing _ _ _ _ _ _ E1 E2 Hlt). lia.
    - pose proof (html_collect_increasing _ _ _ _ _ _ E2 E1 Hlt). lia. }
  rewrite (html_put_back_puts translation_map lines items lines); [|  |done].
  - pose proof (html_collect_complete lines 0 i line c Hline Hc) as Hin.
    apply list_elem_of_lookup in Hin as [j Hj]. simpl in Hj.
    destruct (Hitem j c i Hj) as (Hi & Hm & _).
    pose proof (foldl_put_at (target translation_map)
                  (fun p => rewritten
                              (default "" (lines !! target translation_map p))
                              p.2)
                  items lines j (c, default "" (client c)) Hnd2 Hi) as Hat.
    assert (Htgt : target translation_map (c, default "" (client c)) = i).
    { unfold target. simpl. by rewrite Hm. }
    cbv beta in Hat. rewrite !Htgt in Hat. rewrite Hline, Ht in Hat.
    simpl in Hat.
    rewrite Hat by (by eapply lookup_lt_Some).
    f_equal. unfold rewritten. f_equal.
    apply (html_comment_indent_eq line c Hc).
  - apply Forall_forall. intros p Hp.
    apply list_elem_of_lookup in Hp as [j Hj].
    destruct (Hback j p Hj) as [i' Hi'].
    destruct (Hitem j p.1 i' Hi') as (_ & Hm & l & Hl & _).
    by exists i', l.
Qed.

End SpecialTag.

Lemma html_special_translates_comments_witness :
  HtmlView.special_lines Scenario.uppercase
    ("int x;" +:+ PyStr.LF +:+ "  // one" +:+ PyStr.LF +:+ "// two") !! 1
  = Some (PyStr.indent_of "  // one" +:+ "// " +:+ "ONE").
Proof.
  apply (html_special_translates_comments Scenario.uppercase
           ("int x;" +:+ PyStr.LF +:+ "  // one" +:+ PyStr.LF +:+ "// two")
           1 "  // one" "one" "ONE").
  - by_decide.
  - repeat constructor; by eexists.
  - reflexivity.
  - reflexivity.
  - reflexivity.
Defined.

Section SpecialTagDuplicates.
Import PyStr Html HtmlView.

(** X19.  When two lines of a special tag have the same comment text,
    the earlier one is never rewritten, whatever the service answers: the
    dictionary of the driver keeps one line per comment text, the last
    one. *)
Theorem html_duplicate_comment_keeps_earlier_line
  (client : string -> option string) (text : string) (i i' : nat)
  (line line' c : string) :
  split_nl text !! i = Some line ->
  comment_text_of line = Some c ->
  split_nl text !! i' = Some line' ->
  comment_text_of line' = Some c ->
  i < i' ->
  special_lines client text !! i = Some line.
Proof.
  intros Hline Hc Hline' Hc' Hlt.
  unfold special_lines.
  change (foldl (fun d p => <[p.1 := p.2]> d) ∅ (collect 0 (split_nl text)))
    with (foldl Store.assign (∅ : gmap string nat) (collect 0 (split_nl text))).
  set (found := collect 0 (split_nl text)).
  assert (Hfree : forall k v,
            foldl Store.assign (∅ : gmap string nat) found !! k = Some v ->
            v <> i);
    [|by rewrite (proj1 (html_put_back_other _ _ _ i Hfree))].
  intros k v Hkv ->.
  pose proof Hkv as Hin.
  apply (foldl_assign_elem ∅) in Hin as [Hin|Hin];
    [by rewrite lookup_empty in Hin|].
  apply html_collect_source in Hin as (l & _ & Hl & Hk).
  rewrite Nat.sub_0_r in Hl.
  assert (k = c) as -> by congruence.
  pose proof (html_collect_complete (split_nl text) 0 i' line' c Hline' Hc')
    as Hin'. simpl in Hin'. fold found in Hin'.
  apply list_elem_of_lookup in Hin' as [j2 Hj2].
  destruct (last_occurrence found.*1 c) as (jl & Hjl & Hafter).
  { apply list_elem_of_fmap. exists (c, i'). split; [done|].
    by eapply list_elem_of_lookup_2. }
  rewrite list_lookup_fmap in Hjl.
  destruct (found !! jl) as [[c2 v]|] eqn:Ejl; [|done].
  simpl in Hjl. injection Hjl as ->.
  assert (Hmap : foldl Store.assign (∅ : gmap string nat) found !! c = Some v).
  { apply (foldl_assign_last ∅ found c jl v Ejl).
    intros j' v' Hj' Hf. apply (Hafter j' Hj').
    by rewrite list_lookup_fmap, Hf. }
  assert (v = i) as -> by congruence.
  destruct (Nat.lt_trichotomy j2 jl) as [Hlt2 | [-> | Hlt2]].
  - pose proof (html_collect_increasing _ _ _ _ _ _ Hj2 Ejl Hlt2) as H.
    simpl in H. lia.
  - assert (i = i') by congruence. lia.
  - apply (Hafter j2 Hlt2). by rewrite list_lookup_fmap, Hj2.
Qed.

Lemma html_duplicate_comment_keeps_earlier_line_witness :
  special_lines Scenario.uppercase
    ("// note" +:+ LF +:+ "x" +:+ LF +:+ "  // note") !! 0
  = Some "// note".
Proof.
  apply (html_duplicate_comment_keeps_earlier_line Scenario.uppercase
           ("// note" +:+ LF +:+ "x" +:+ LF +:+ "  // note")
           0 2 "// note" "  // note" "note"); try reflexivity.
  lia.
Defined.

End SpecialTagDuplicates.

(** ** Markdown lines without code spans *)

Section PlainLines.
Import PyStr.

Ltac case_head H :=
  repeat match type of H with
         | context [match ?x with _ => _ end] =>
             is_var x; destruct x; try discriminate H
         end.

(** A pattern that matches nowhere leaves no match. *)
Lemma scan_none (m : string -> option nat) (s : string) (skip : nat) :
  (forall k, m (drop k s) = None) ->
  Re.hits (Re.scan m skip s) = [].
Proof.
  revert skip; induction s as [|c s IH]; intros skip Hnone; [done|].
  assert (Hs : forall k, m (drop k s) = None) by (intros k; apply (Hnone (S k))).
  simpl. destruct skip as [|skip]; [|by apply IH].
  rewrite (Hnone 0 : m (String c s) = None). simpl. by apply IH.
Qed.

Lemma md_no_backtick_no_match (s : string) :
  mem "`" s = false -> Md.inline_code_pattern s = None.
Proof.
  intros Hplain.
  destruct (Md.inline_code_pattern s) as [n|] eqn:E; [|done].
  exfalso. unfold Md.inline_code_pattern in E. case_head E.
  change (mem "`" (String "`" s))
    with ((if ascii_dec "`" "`" then true else false) || mem "`" s) in Hplain.
  by destruct (ascii_dec "`" "`").
Qed.

Lemma mem_drop (c : ascii) (s : string) (k : nat) :
  mem c s = false -> mem c (drop k s) = false.
Proof.
  revert k; induction s as [|d s IH]; intros [|k] H; simpl; try done.
  apply IH.
  change (mem c (String d s))
    with ((if ascii_dec c d then true else false) || mem c s) in H.
  by apply orb_false_elim in H as [_ H].
Qed.

Lemma md_scan_plain (s : string) (skip : nat) :
  mem "`" s = false ->
  Re.hits (Re.scan Md.inline_code_pattern skip s) = [].
Proof.
  intros Hplain. apply scan_none. intros k.
  by apply md_no_backtick_no_match, mem_drop.
Qed.

(** X20.  A Markdown line without a backtick has no code span: the line
    goes to the service as it is, when it holds a letter or a digit, and
    the answer replaces the line as it is; a line without letters and
    digits, and a line whose call fails, stays. *)
Theorem md_plain_line (client : string -> option string) (line : string) :
  mem "`" line = false ->
  Md.line_with_placeholders line = line
  /\ Md.inline_code_snippets line = []
  /\ Md.translate_line client line
     = (if has_alnum line then Sent (default line (client line)) [line]
        else Sent line []).
Proof.
  intros Hplain.
  assert (Hhits : Re.finditer Md.inline_code_pattern line = []).
  { by apply md_scan_plain. }
  assert (Hsame : Md.line_with_placeholders line = line).
  { unfold Md.line_with_placeholders, Re.sub_counting.
    rewrite <- (sub_id Md.inline_code_pattern line) at 2.
    apply render_by_index. intros j x Hj.
    unfold Re.finditer in Hhits. by rewrite Hhits in Hj. }
  assert (Hnone : Md.inline_code_snippets line = []).
  { unfold Md.inline_code_snippets. by rewrite Hhits. }
  split; [done|]. split; [done|].
  unfold Md.translate_line. rewrite Hsame, Hnone.
  destruct (has_alnum line) eqn:Ea; simpl; [|done].
  unfold call_client, mbind, Dispatch_bind. cbn [value sent].
  by destruct (client line).
Qed.

Lemma md_plain_line_witness :
  Md.translate_line Scenario.uppercase "Plain prose."
  = Sent "PLAIN PROSE." ["Plain prose."].
Proof.
  destruct (md_plain_line Scenario.uppercase "Plain prose.") as (_ & _ & H).
  - reflexivity.
  - exact H.
Defined.

End PlainLines.
